(** * timesheet-helpers: the TF-IDF task inference of [src/summarize.ts]

    A shallow embedding of the tokenizer, the training loop and the
    inference loop of the task-inference script, followed by the
    properties the specification states about them.  The report of the
    candidates, [count_max_length], and the tags of the summary
    ([mapTag], [extract_tags]) are embedded too, with properties read off
    the code.

    Conventions of the embedding.
    - A JavaScript string is the list of its UTF-16 code units.
    - A JavaScript [Map] is an association list in insertion order:
      [set] on a key that is present replaces the value in place, [set]
      on a fresh key appends.  A [Set] is a duplicate-free list in
      insertion order.
    - Counters are natural numbers.  Scores are real numbers: [/], [*],
      [+] and [Math.log] are read as the exact operations on [R], so
      rounding, infinities and NaN are outside the model.
    - An access to a property of [undefined] raises [TypeError]; loops
      whose body can raise run in the [result] monad. *)

From Stdlib Require Import List NArith Arith Bool Ascii String Lia.
From Stdlib Require Import Reals Lra.
From Stdlib Require Import Permutation Sorted.
Import ListNotations.

Set Implicit Arguments.

(** ** Strings *)

Module JsString.

Definition code_unit := N.
Definition t := list code_unit.

(** The code units of an ASCII literal. *)
Definition lit (s : string) : t := map N_of_ascii (list_ascii_of_string s).

Fixpoint eqb (a b : t) : bool :=
  match a, b with
  | [], [] => true
  | x :: a', y :: b' => N.eqb x y && eqb a' b'
  | _, _ => false
  end.

(** [WhiteSpace] and [LineTerminator] of ECMAScript: what [\s] matches
    and what [trim] removes. *)
Definition white_space_units : list code_unit :=
  [9; 10; 11; 12; 13; 32; 160; 5760;
   8192; 8193; 8194; 8195; 8196; 8197; 8198; 8199; 8200; 8201; 8202;
   8232; 8233; 8239; 8287; 12288; 65279]%N.

Definition is_white_space (c : code_unit) : bool :=
  existsb (N.eqb c) white_space_units.

(** [s.split(/\s+/)]: the pieces between maximal runs of white space.
    [in_run] tells that the previous unit was white space, [piece] is
    the current piece, reversed.  A leading or trailing run leaves an
    empty piece, and the empty string splits into one empty piece. *)
Fixpoint split_ws_from (in_run : bool) (piece : t) (s : t) : list t :=
  match s with
  | [] => [rev piece]
  | c :: s' =>
      if is_white_space c then
        if in_run then split_ws_from true [] s'
        else rev piece :: split_ws_from true [] s'
      else split_ws_from false (c :: piece) s'
  end.

Definition split_ws (s : t) : list t := split_ws_from false [] s.

(** [s.split(sep)] for a separator of one code unit. *)
Fixpoint split_unit_from (sep : code_unit) (piece : t) (s : t) : list t :=
  match s with
  | [] => [rev piece]
  | c :: s' =>
      if N.eqb c sep then rev piece :: split_unit_from sep [] s'
      else split_unit_from sep (c :: piece) s'
  end.

Definition split_unit (sep : code_unit) (s : t) : list t :=
  split_unit_from sep [] s.

Fixpoint trim_start (s : t) : t :=
  match s with
  | [] => []
  | c :: s' => if is_white_space c then trim_start s' else s
  end.

Definition trim (s : t) : t := rev (trim_start (rev (trim_start s))).

(** [word.replaceAll(symbol, '')] for a pattern of one code unit. *)
Definition remove_all (symbol : code_unit) (word : t) : t :=
  filter (fun c => negb (N.eqb c symbol)) word.

(** [array.includes(word)] on an array of strings. *)
Definition includes (array : list t) (word : t) : bool :=
  existsb (eqb word) array.

End JsString.

Definition jsstring : Type := JsString.t.

(** ** Maps and sets in insertion order *)

Module JsMap.

Definition t (V : Type) := list (jsstring * V).

Definition empty {V} : t V := [].

Fixpoint get {V} (k : jsstring) (m : t V) : option V :=
  match m with
  | [] => None
  | (k', v) :: m' => if JsString.eqb k k' then Some v else get k m'
  end.

Fixpoint set {V} (k : jsstring) (v : V) (m : t V) : t V :=
  match m with
  | [] => [(k, v)]
  | (k', v') :: m' =>
      if JsString.eqb k k' then (k', v) :: m' else (k', v') :: set k v m'
  end.

Definition keys {V} (m : t V) : list jsstring := map fst m.
Definition values {V} (m : t V) : list V := map snd m.
Definition entries {V} (m : t V) : list (jsstring * V) := m.

(** The keys a [for (k in m)] loop visits: the enumerable string-keyed
    properties of the object.  The entries of a [Map] are kept in its
    internal slot, not in properties, and nothing in the script assigns
    a property to a map, so the loop visits nothing. *)
Definition for_in_keys {V} (m : t V) : list jsstring := [].

End JsMap.

Module JsSet.

Definition t := list jsstring.

Definition add (x : jsstring) (s : t) : t :=
  if JsString.includes s x then s else s ++ [x].

(** [new Set(array)] *)
Definition from_array (array : list jsstring) : t :=
  fold_left (fun s x => add x s) array [].

End JsSet.

(** ** Results of code that can raise *)

Inductive result (A : Type) : Type :=
| Ok (a : A)
| TypeError.

Arguments Ok {A} a.
Arguments TypeError {A}.

(** [for (let x of xs) body] with a body that can raise. *)
Fixpoint for_of {S A : Type} (body : S -> A -> result S) (xs : list A) (s : S)
  : result S :=
  match xs with
  | [] => Ok s
  | x :: xs' =>
      match body s x with
      | Ok s' => for_of body xs' s'
      | TypeError => TypeError
      end
  end.

(** [v || 0] on the result of a lookup of a number. *)
Definition or_zero (v : option nat) : nat :=
  match v with Some n => n | None => 0 end.

(** [v || ''] on a field that may be missing. *)
Definition or_empty (v : option jsstring) : jsstring :=
  match v with Some s => s | None => [] end.

(** ** The tokenizer *)

(** [extract_lines] of the helper library: the trimmed, non-empty lines. *)
Definition extract_lines (text : jsstring) : list jsstring :=
  filter (fun line => 0 <? List.length line)
    (map JsString.trim (JsString.split_unit 10%N text)).

Definition skip_words_text : jsstring := JsString.lit "
is
an
the
and
or
not
of
on
of
to
".

Definition skip_words : list jsstring :=
  Eval vm_compute in extract_lines skip_words_text.

Definition symbols : jsstring := Eval vm_compute in JsString.lit "()-.,?".

Definition extract_words (remark : jsstring) : list jsstring :=
  let words := JsString.split_ws remark in
  let words :=
    fold_left (fun words symbol => map (JsString.remove_all symbol) words)
      symbols words in
  filter
    (fun word =>
       (0 <? List.length word) && negb (JsString.includes skip_words word))
    words.

(** ** The data of the script *)

(** A row of the log sheet as [readCSV] hands it over: a field that is
    missing from the record reads as [undefined]. *)
Record Row : Type := {
  Task : option jsstring;
  Remark : option jsstring
}.

Record Word : Type := {
  word : jsstring;
  total_occurrence : nat;
  document_frequency : nat;
  tasks : JsMap.t nat;
  idf_score : option R
}.

(** The two globals of the script: [word_entries] and [total_remarks]. *)
Record Model : Type := {
  word_entries : JsMap.t Word;
  total_remarks : nat
}.

Definition initial_model : Model :=
  {| word_entries := JsMap.empty; total_remarks := 0 |}.

(** The object literal of the first pass. *)
Definition new_word_entry (w : jsstring) : Word :=
  {| word := w;
     total_occurrence := 0;
     document_frequency := 0;
     tasks := JsMap.empty;
     idf_score := None |}.

(** [word_entry.document_frequency++] *)
Definition inc_document_frequency (e : Word) : Word :=
  {| word := word e;
     total_occurrence := total_occurrence e;
     document_frequency := document_frequency e + 1;
     tasks := tasks e;
     idf_score := idf_score e |}.

(** [word_entry.total_occurrence++] followed by
    [word_entry.tasks.set(task, task_occurrence + 1)]. *)
Definition count_occurrence (task : jsstring) (e : Word) : Word :=
  let task_occurrence := or_zero (JsMap.get task (tasks e)) in
  {| word := word e;
     total_occurrence := total_occurrence e + 1;
     document_frequency := document_frequency e;
     tasks := JsMap.set task (task_occurrence + 1) (tasks e);
     idf_score := idf_score e |}.

(** [entry.idf_score = Math.log(total_remarks / entry.document_frequency)] *)
Definition set_idf_score (total : nat) (e : Word) : Word :=
  {| word := word e;
     total_occurrence := total_occurrence e;
     document_frequency := document_frequency e;
     tasks := tasks e;
     idf_score := Some (ln (INR total / INR (document_frequency e)))%R |}.

(** ** Training *)

(** A string is truthy when it is not empty. *)
Definition truthy (s : jsstring) : bool := 0 <? List.length s.

(** One round of the first pass.  A [Word] object is referenced from one
    slot of [word_entries] only, the one under its own word, so the
    increment through the reference is a replacement of that slot. *)
Definition first_pass_step (entries : JsMap.t Word) (w : jsstring)
  : JsMap.t Word :=
  match JsMap.get w entries with
  | Some word_entry => JsMap.set w (inc_document_frequency word_entry) entries
  | None =>
      let word_entry := new_word_entry w in
      let entries := JsMap.set w word_entry entries in
      JsMap.set w (inc_document_frequency word_entry) entries
  end.

Definition first_pass (unique_words : JsSet.t) (entries : JsMap.t Word)
  : JsMap.t Word :=
  fold_left first_pass_step unique_words entries.

(** One round of the second pass: [word_entries.get(word)!] is not
    checked at run time, the increment on [undefined] raises. *)
Definition second_pass_step (task : jsstring) (entries : JsMap.t Word)
  (w : jsstring) : result (JsMap.t Word) :=
  match JsMap.get w entries with
  | None => TypeError
  | Some word_entry => Ok (JsMap.set w (count_occurrence task word_entry) entries)
  end.

Definition second_pass (task : jsstring) (words : list jsstring)
  (entries : JsMap.t Word) : result (JsMap.t Word) :=
  for_of (second_pass_step task) words entries.

(** The body of the training loop. *)
Definition train_row (model : Model) (row : Row) : result Model :=
  let task := or_empty (Task row) in
  let remark := or_empty (Remark row) in
  if negb (truthy task) then Ok model
  else
    let total := total_remarks model + 1 in
    let words := extract_words remark in
    let unique_words := JsSet.from_array words in
    let entries := first_pass unique_words (word_entries model) in
    match second_pass task words entries with
    | Ok entries => Ok {| word_entries := entries; total_remarks := total |}
    | TypeError => TypeError
    end.

(** The training loop, before the IDF scores are filled in. *)
Definition train_counts (rows : list Row) : result Model :=
  for_of train_row rows initial_model.

(** The loop that pre-calculates the IDF scores. *)
Definition idf_pass (model : Model) : Model :=
  {| word_entries :=
       map (fun '(w, entry) => (w, set_idf_score (total_remarks model) entry))
         (word_entries model);
     total_remarks := total_remarks model |}.

Definition train (rows : list Row) : result Model :=
  match train_counts rows with
  | Ok model => Ok (idf_pass model)
  | TypeError => TypeError
  end.

(** ** Inference *)

Definition wordFreq_of (words : list jsstring) : JsMap.t nat :=
  fold_left
    (fun wordFreq w => JsMap.set w (or_zero (JsMap.get w wordFreq) + 1) wordFreq)
    words JsMap.empty.

(** [wordEntry.idf_score || 0] *)
Definition idf_or_zero (v : option R) : R :=
  match v with Some x => x | None => 0%R end.

(** [taskScores.get(taskName) || 0] *)
Definition score_or_zero (v : option R) : R :=
  match v with Some x => x | None => 0%R end.

(** The inner loop of step 2: one word hands its TF-IDF score to every
    task it was seen with. *)
Definition distribute (tfidf : R) (wordEntry : Word) (taskScores : JsMap.t R)
  : JsMap.t R :=
  fold_left
    (fun taskScores '(taskName, coOccurrenceCount) =>
       let weightedScore := (tfidf * INR coOccurrenceCount)%R in
       let currentScore := score_or_zero (JsMap.get taskName taskScores) in
       JsMap.set taskName (currentScore + weightedScore)%R taskScores)
    (JsMap.entries (tasks wordEntry)) taskScores.

(** One round of the outer loop of step 2.  [wordFreq.get(word)!] reads a
    key of [wordFreq] itself; [or_zero] stands for the unchecked read. *)
Definition score_word (model : Model) (wordFreq : JsMap.t nat)
  (totalWordsInRemark : nat) (taskScores : JsMap.t R) (w : jsstring)
  : JsMap.t R :=
  match JsMap.get w (word_entries model) with
  | None => taskScores
  | Some wordEntry =>
      let freq := or_zero (JsMap.get w wordFreq) in
      let tf := (INR freq / INR totalWordsInRemark)%R in
      let idf := idf_or_zero (idf_score wordEntry) in
      let tfidf := (tf * idf)%R in
      distribute tfidf wordEntry taskScores
  end.

Definition taskScores_of (model : Model) (words : list jsstring) : JsMap.t R :=
  let wordFreq := wordFreq_of words in
  let totalWordsInRemark := List.length words in
  fold_left (score_word model wordFreq totalWordsInRemark)
    (JsMap.keys wordFreq) JsMap.empty.

(** [let total = 0; for (let x of m.values()) total += x] *)
Definition total_of (m : JsMap.t R) : R :=
  fold_left Rplus (JsMap.values m) 0%R.

(** Step 3: the first normalization. *)
Definition normalize (taskScores : JsMap.t R) : JsMap.t R :=
  let totalScore := total_of taskScores in
  if Rlt_dec 0 totalScore then
    fold_left
      (fun taskProbabilities '(taskName, score) =>
         JsMap.set taskName (score / totalScore)%R taskProbabilities)
      (JsMap.entries taskScores) JsMap.empty
  else JsMap.empty.

(** The second normalization, as the script has it: the loop is a
    [for ... in] over the map object. *)
Definition renormalize (taskProbabilities : JsMap.t R) : JsMap.t R :=
  let totalProbability := total_of taskProbabilities in
  if Rlt_dec 0 totalProbability then
    fold_left
      (fun taskProbabilities taskName =>
         let prob := score_or_zero (JsMap.get taskName taskProbabilities) in
         JsMap.set taskName (prob / totalProbability)%R taskProbabilities)
      (JsMap.for_in_keys taskProbabilities) taskProbabilities
  else taskProbabilities.

(** The second normalization in the words of the specification: every
    probability is divided again by the sum of the probabilities. *)
Definition renormalize_spec (taskProbabilities : JsMap.t R) : JsMap.t R :=
  let totalProbability := total_of taskProbabilities in
  if Rlt_dec 0 totalProbability then
    map (fun '(taskName, prob) => (taskName, (prob / totalProbability)%R))
      taskProbabilities
  else taskProbabilities.

Definition taskProbabilities_of (model : Model) (words : list jsstring)
  : JsMap.t R :=
  renormalize (normalize (taskScores_of model words)).

(** What one round of the inference loop does with a row. *)
Inductive outcome : Type :=
| Skipped
| Reported (taskProbabilities : JsMap.t R).

Definition infer_row (model : Model) (row : Row) : outcome :=
  let task := or_empty (Task row) in
  let remark := or_empty (Remark row) in
  if truthy task then Skipped
  else
    let words := extract_words remark in
    if List.length words =? 0 then Skipped
    else Reported (taskProbabilities_of model words).

(** The distribution of a remark without a task: empty when the row is
    skipped, which is also what the scoring yields on no words. *)
Definition infer (model : Model) (remark : jsstring) : JsMap.t R :=
  match infer_row model {| Task := None; Remark := Some remark |} with
  | Skipped => JsMap.empty
  | Reported taskProbabilities => taskProbabilities
  end.

(** [array.sort(([taskA, probA], [taskB, probB]) => probB - probA)]: the
    sort is stable, so a pair goes in front of the later pairs that are
    not strictly more probable. *)
Fixpoint insert_by_probability (x : jsstring * R) (sorted : list (jsstring * R))
  : list (jsstring * R) :=
  match sorted with
  | [] => [x]
  | y :: sorted' =>
      if Rlt_dec (snd x) (snd y) then y :: insert_by_probability x sorted'
      else x :: sorted
  end.

Definition sortedTasks (taskProbabilities : JsMap.t R) : list (jsstring * R) :=
  fold_right insert_by_probability [] (JsMap.entries taskProbabilities).

Definition filteredTasks (taskProbabilities : JsMap.t R) : list (jsstring * R) :=
  firstn 5
    (filter (fun '(_, probability) =>
               if Rle_dec (5 / 100) probability then true else false)
       (sortedTasks taskProbabilities)).

(** ** The vocabulary of the specification *)

(** A string starts a piece when it does not begin with white space. *)
Definition starts_piece (s : jsstring) : Prop :=
  match s with
  | [] => True
  | c :: _ => JsString.is_white_space c = false
  end.

(** [ws_split s pieces]: [s] is the pieces in order, without white space
    inside, separated by maximal non-empty runs of white space. *)
Inductive ws_split : jsstring -> list jsstring -> Prop :=
| ws_split_last (piece : jsstring) :
    Forall (fun c => JsString.is_white_space c = false) piece ->
    ws_split piece [piece]
| ws_split_run (piece run rest : jsstring) (pieces : list jsstring) :
    Forall (fun c => JsString.is_white_space c = false) piece ->
    run <> [] ->
    Forall (fun c => JsString.is_white_space c = true) run ->
    starts_piece rest ->
    ws_split rest pieces ->
    ws_split (piece ++ run ++ rest) (piece :: pieces).

(** The punctuation the tokenizer deletes: ( ) - . , ? *)
Definition is_symbol (c : JsString.code_unit) : bool :=
  existsb (N.eqb c) [40; 41; 45; 46; 44; 63]%N.

Definition strip_symbols (token : jsstring) : jsstring :=
  filter (fun c => negb (is_symbol c)) token.

(** The stop words, as a set. *)
Definition stop_words : list jsstring :=
  map JsString.lit
    ["is"; "an"; "the"; "and"; "or"; "not"; "of"; "on"; "to"]%string.

Definition is_stop_word (token : jsstring) : bool :=
  JsString.includes stop_words token.

(** The tokenizer in the words of the specification, from the pieces
    on: strip, drop the empty tokens, drop the stop words. *)
Definition tokenize_spec (pieces : list jsstring) : list jsstring :=
  filter (fun token => negb (is_stop_word token))
    (filter (fun token => negb (JsString.eqb token []))
       (map strip_symbols pieces)).

(** A labeled row has a non-empty task. *)
Definition is_labeled (row : Row) : bool := truthy (or_empty (Task row)).

Definition labeled_rows (rows : list Row) : list Row := filter is_labeled rows.

Definition remark_tokens (row : Row) : list jsstring :=
  extract_words (or_empty (Remark row)).

(** The number of labeled rows whose tokens contain [w] at least once. *)
Definition remarks_containing (w : jsstring) (rows : list Row) : nat :=
  List.length
    (filter (fun row => JsString.includes (remark_tokens row) w)
       (labeled_rows rows)).

(** The number of times [w] occurs among [words]. *)
Definition occurrences (w : jsstring) (words : list jsstring) : nat :=
  List.length (filter (JsString.eqb w) words).

(** The number of times [w] occurs in the tokens of the labeled rows. *)
Definition total_occurrences (w : jsstring) (rows : list Row) : nat :=
  list_sum (map (fun row => occurrences w (remark_tokens row)) (labeled_rows rows)).

(** The sum of a distribution, term by term. *)
Definition sum_of_probabilities (d : JsMap.t R) : R :=
  fold_right Rplus 0%R (JsMap.values d).

(** ** The scenario of the specification *)

Definition labeled_row (task remark : string) : Row :=
  {| Task := Some (JsString.lit task); Remark := Some (JsString.lit remark) |}.

Definition scenario_rows : list Row :=
  [ labeled_row "website" "implement email subscribe form";
    labeled_row "animal-ai" "team: demo sofia and lanna on box model training" ].

Definition scenario_remark : jsstring :=
  JsString.lit "team: demo to lanna and sofia on colab box model training".

Definition animal_ai : jsstring := JsString.lit "animal-ai".

(** The counters the training loop leaves on the scenario. *)
Definition scenario_counts : Model :=
  Eval vm_compute in
    match train_counts scenario_rows with
    | Ok model => model
    | TypeError => initial_model
    end.

Definition scenario_words : list jsstring :=
  Eval vm_compute in extract_words scenario_remark.

(** ** Invariants of the training loop *)

(** The entry the training loop works on for a word: the stored one, or
    the fresh one of the first pass. *)
Definition entry_or_new (w : jsstring) (o : option Word) : Word :=
  match o with Some e => e | None => new_word_entry w end.

Definition document_frequency_of (o : option Word) : nat :=
  match o with Some e => document_frequency e | None => 0 end.

Definition total_occurrence_of (o : option Word) : nat :=
  match o with Some e => total_occurrence e | None => 0 end.

(** The slot of [w] agrees with a recount over [rows]. *)
Definition slot_ok (rows : list Row) (w : jsstring) (o : option Word) : Prop :=
  match o with
  | None => remarks_containing w rows = 0 /\ total_occurrences w rows = 0
  | Some e =>
      word e = w
      /\ document_frequency e = remarks_containing w rows
      /\ total_occurrence e = total_occurrences w rows
      /\ 1 <= document_frequency e
  end.

(** The state of the training loop after the rows [rows]. *)
Definition counts_ok (rows : list Row) (model : Model) : Prop :=
  total_remarks model = List.length (labeled_rows rows)
  /\ NoDup (JsMap.keys (word_entries model))
  /\ forall w, slot_ok rows w (JsMap.get w (word_entries model)).

(** Every stored IDF score is read as a non-negative weight. *)
Definition weights_ok (model : Model) : Prop :=
  forall w e,
    JsMap.get w (word_entries model) = Some e ->
    (0 <= idf_or_zero (idf_score e))%R.

(** ** Recounts for the task counters *)

(** The number of times [w] occurs in the tokens of the rows labeled
    with [task]. *)
Definition task_occurrences (w task : jsstring) (rows : list Row) : nat :=
  list_sum
    (map (fun row => occurrences w (remark_tokens row))
       (filter (fun row => JsString.eqb (or_empty (Task row)) task)
          (labeled_rows rows))).

(** The task counters of an entry are consistent with its total. *)
Definition tasks_consistent (e : Word) : Prop :=
  NoDup (JsMap.keys (tasks e))
  /\ list_sum (JsMap.values (tasks e)) = total_occurrence e
  /\ Forall (fun '(_, count) => 1 <= count) (tasks e).

(** The task counters of every entry agree with a recount over [rows]. *)
Definition tasks_ok (rows : list Row) (model : Model) : Prop :=
  forall w e,
    JsMap.get w (word_entries model) = Some e ->
    tasks_consistent e
    /\ forall task,
         or_zero (JsMap.get task (tasks e)) = task_occurrences w task rows.

(** The counter the model keeps for a word and a task, if any. *)
Definition task_counter (model : Model) (w task : jsstring) : option nat :=
  match JsMap.get w (word_entries model) with
  | Some e => JsMap.get task (tasks e)
  | None => None
  end.

(** The counters and the score of an entry, without its task counters. *)
Definition word_statistics (e : Word) : nat * nat * option R :=
  (document_frequency e, total_occurrence e, idf_score e).

(** ** The raw score of a task, in closed form *)

(** What the word [w] of a remark with the tokens [words] adds to the
    score of [task]: term frequency times IDF score times task counter. *)
Definition contribution (model : Model) (words : list jsstring)
  (task w : jsstring) : R :=
  match JsMap.get w (word_entries model) with
  | None => 0%R
  | Some e =>
      (INR (occurrences w words) / INR (List.length words)
       * idf_or_zero (idf_score e)
       * INR (or_zero (JsMap.get task (tasks e))))%R
  end.

(** The contributions of the distinct words of the remark. *)
Definition raw_score (model : Model) (words : list jsstring) (task : jsstring)
  : R :=
  fold_right Rplus 0%R
    (map (contribution model words task) (JsSet.from_array words)).

(** ** The width of the report *)

(** [count_max_length]: the length of the longest line of the remark. *)
Definition count_max_length (remark : jsstring) : nat :=
  let lines := JsString.split_unit 10%N remark in
  fold_left (fun max line => Nat.max max (List.length line)) lines 0.

(** ** The order of the report *)

(** A pair is at least as probable as a later one. *)
Definition not_less_probable (a b : jsstring * R) : Prop := (snd b <= snd a)%R.

(** The pairs of a list with the probability [p], in their order. *)
Definition with_probability (p : R) (l : list (jsstring * R))
  : list (jsstring * R) :=
  filter (fun x => if Req_dec_T (snd x) p then true else false) l.

(** The pairs of a list that reach the threshold of the report. *)
Definition reaching_threshold (l : list (jsstring * R)) : list (jsstring * R) :=
  filter (fun '(_, probability) =>
            if Rle_dec (5 / 100) probability then true else false) l.

(** ** Tags: the tables and [mapTag] of the category module *)

Module Category.

Record TagCategory : Type := {
  name : jsstring;
  variants : list jsstring
}.

Definition tag_categories : list TagCategory :=
  [ {| name := JsString.lit "dev";
       variants :=
         map JsString.lit
           ["feat"; "wip"; "exp"; "chore"; "patch"; "ui"; "data"; "db"; "seed";
            "perf"; "debug"]%string |};
    {| name := JsString.lit "devop";
       variants := map JsString.lit ["ci"; "deploy"]%string |} ].

(** The own properties of the object [typo_tags]. *)
Definition typo_tags : JsMap.t jsstring :=
  [ (JsString.lit "faet", JsString.lit "feat");
    (JsString.lit "taem", JsString.lit "team");
    (JsString.lit "opeartion", JsString.lit "operation");
    (JsString.lit "adocs", JsString.lit "operation") ].

(** The properties a plain object inherits from [Object.prototype]; the
    value of each is a function or an object, never a string. *)
Definition object_prototype_properties : list jsstring :=
  map JsString.lit
    ["constructor"; "hasOwnProperty"; "isPrototypeOf"; "propertyIsEnumerable";
     "toLocaleString"; "toString"; "valueOf"; "__proto__"; "__defineGetter__";
     "__defineSetter__"; "__lookupGetter__"; "__lookupSetter__"]%string.

(** What [mapTag] returns: a string, or the value [typo_tags[tag]] found
    on the prototype when [tag] names an inherited property. *)
Inductive tag_value : Type :=
| TagString (s : jsstring)
| TagInherited (property : jsstring).

(** The loop over [tag_categories] on a string. *)
Fixpoint categorize (categories : list TagCategory) (tag : jsstring)
  : tag_value :=
  match categories with
  | [] => TagString tag
  | tag_category :: categories' =>
      if JsString.includes (variants tag_category) tag
      then TagString (name tag_category ++ JsString.lit ":" ++ tag)
      else categorize categories' tag
  end.

(** [mapTag]: [typo_tags[tag] || tag] reads an own property, else an
    inherited one, which is truthy and equal to no variant, else yields
    [undefined]. *)
Definition mapTag (tag : jsstring) : tag_value :=
  match JsMap.get tag typo_tags with
  | Some corrected =>
      categorize tag_categories (if truthy corrected then corrected else tag)
  | None =>
      if JsString.includes object_prototype_properties tag
      then TagInherited tag
      else categorize tag_categories tag
  end.

End Category.

(** ** Tags: [extract_tags] and the shares of the summary *)

(** [\w] without flags: an ASCII letter, a digit or the underscore. *)
Definition is_word_char (c : JsString.code_unit) : bool :=
  ((48 <=? c) && (c <=? 57) || (65 <=? c) && (c <=? 90)
   || (97 <=? c) && (c <=? 122) || (c =? 95))%N.

(** The longest run of word characters at the start, and the rest. *)
Fixpoint word_run (s : jsstring) : jsstring * jsstring :=
  match s with
  | [] => ([], [])
  | c :: s' =>
      if is_word_char c
      then let (run, rest) := word_run s' in (c :: run, rest)
      else ([], s)
  end.

(** [line.match(/^(\w+): /)?.[1]]: the run can not be cut short, since
    the unit after a shorter run is a word character and not the colon. *)
Definition match_tag (line : jsstring) : option jsstring :=
  let (run, rest) := word_run line in
  match run, rest with
  | _ :: _, c1 :: c2 :: _ =>
      if (N.eqb c1 58 && N.eqb c2 32)%bool then Some run else None
  | _, _ => None
  end.

Fixpoint starts_with (prefix s : jsstring) : bool :=
  match prefix, s with
  | [], _ => true
  | _ :: _, [] => false
  | x :: prefix', y :: s' => N.eqb x y && starts_with prefix' s'
  end.

(** [s.includes(searchString)] on strings. *)
Fixpoint includes_string (searchString s : jsstring) : bool :=
  starts_with searchString s
  || match s with
     | [] => false
     | _ :: s' => includes_string searchString s'
     end.

(** [.filter(tag => tag)] on the tags of the lines, which drops
    [undefined] and the empty string and leaves strings. *)
Definition truthy_tags (tags : list (option jsstring)) : list jsstring :=
  flat_map
    (fun tag =>
       match tag with
       | Some s => if truthy s then [s] else []
       | None => []
       end)
    tags.

Section ExtractTags.

(** [String.prototype.toLowerCase], whose Unicode tables are not part of
    the embedding. *)
Variable toLowerCase : jsstring -> jsstring.

Definition extract_tags (task remark : jsstring) : list Category.tag_value :=
  let tags :=
    map Category.mapTag
      (truthy_tags
         (map (fun line => option_map JsString.trim (match_tag line))
            (JsString.split_unit 10%N remark))) in
  let tags :=
    if (List.length tags =? 0)
       && includes_string (JsString.lit "setup ") (toLowerCase remark)
    then tags ++ [Category.TagString (JsString.lit "devop")]
    else tags in
  let tags :=
    if (List.length tags =? 0)
       && includes_string (JsString.lit "add ") (toLowerCase remark)
    then tags ++ [Category.TagString (JsString.lit "dev")]
    else tags in
  let tags :=
    if List.length tags =? 0 then tags ++ [Category.TagString task] else tags in
  tags.


End ExtractTags.

(** The scores of a map multiplied by [c]. *)
Definition scale_scores (c : R) (m : JsMap.t R) : JsMap.t R :=
  map (fun '(k, v) => (k, (c * v)%R)) m.

(** * Properties *)

(** ** Strings *)

Lemma jsstring_eqb_eq (a b : jsstring) : JsString.eqb a b = true <-> a = b.
Proof.
  revert b; induction a as [|x a IH]; intros [|y b]; simpl; split;
    try congruence; try reflexivity.
  - intros H. apply andb_prop in H as [Hx Hab].
    apply N.eqb_eq in Hx. apply IH in Hab. congruence.
  - intros H. injection H as -> ->.
    rewrite N.eqb_refl. simpl. now apply IH.
Qed.

Lemma jsstring_eqb_refl (a : jsstring) : JsString.eqb a a = true.
Proof. now apply jsstring_eqb_eq. Qed.

Lemma jsstring_eqb_neq (a b : jsstring) : JsString.eqb a b = false <-> a <> b.
Proof.
  rewrite <- jsstring_eqb_eq. destruct (JsString.eqb a b); split; congruence.
Qed.

Lemma jsstring_eqb_sym (a b : jsstring) : JsString.eqb a b = JsString.eqb b a.
Proof.
  destruct (JsString.eqb b a) eqn:E.
  - apply jsstring_eqb_eq in E. subst. apply jsstring_eqb_refl.
  - apply jsstring_eqb_neq. apply jsstring_eqb_neq in E. congruence.
Qed.

Lemma includes_In (array : list jsstring) (w : jsstring) :
  JsString.includes array w = true <-> In w array.
Proof.
  unfold JsString.includes. rewrite existsb_exists. split.
  - intros (x & Hx & E). apply jsstring_eqb_eq in E. now subst.
  - intros H. exists w. split; [assumption | apply jsstring_eqb_refl].
Qed.

Lemma includes_app (a b : list jsstring) (w : jsstring) :
  JsString.includes (a ++ b) w = JsString.includes a w || JsString.includes b w.
Proof. unfold JsString.includes. apply existsb_app. Qed.

Lemma truthy_nonempty (s : jsstring) : truthy s = negb (JsString.eqb s []).
Proof. now destruct s. Qed.

(** ** The tokenizer *)

(** After a run has started, the rest of the run is skipped. *)
Lemma split_ws_from_run (s : jsstring) :
  JsString.split_ws_from true [] s
  = JsString.split_ws_from false [] (JsString.trim_start s).
Proof.
  induction s as [|c s IH]; simpl; [reflexivity|].
  destruct (JsString.is_white_space c) eqn:E; simpl; [assumption|].
  now rewrite E.
Qed.

(** A string is a run of white space followed by what [trim_start] keeps. *)
Lemma trim_start_run (s : jsstring) :
  exists run,
    s = run ++ JsString.trim_start s
    /\ Forall (fun c => JsString.is_white_space c = true) run
    /\ starts_piece (JsString.trim_start s).
Proof.
  induction s as [|c s (run & Hs & Hrun & Hrest)]; simpl.
  - exists []. repeat split; constructor.
  - destruct (JsString.is_white_space c) eqn:E.
    + exists (c :: run). simpl. repeat split; try assumption.
      * now f_equal.
      * now constructor.
    + exists []. repeat split; [constructor | exact E].
Qed.

Lemma trim_start_length (s : jsstring) :
  List.length (JsString.trim_start s) <= List.length s.
Proof.
  induction s as [|c s IH]; simpl; [lia|].
  destruct (JsString.is_white_space c); simpl; lia.
Qed.

Lemma split_ws_from_piece (n : nat) :
  forall (s piece : jsstring),
    List.length s <= n ->
    Forall (fun c => JsString.is_white_space c = false) piece ->
    ws_split (rev piece ++ s) (JsString.split_ws_from false piece s).
Proof.
  induction n as [|n IH]; intros s piece Hn Hpiece.
  - destruct s; [|simpl in Hn; lia]. simpl. rewrite app_nil_r.
    constructor. now apply Forall_rev.
  - destruct s as [|c s]; simpl.
    + rewrite app_nil_r. constructor. now apply Forall_rev.
    + simpl in Hn. destruct (JsString.is_white_space c) eqn:E.
      * rewrite split_ws_from_run.
        destruct (trim_start_run s) as (run & Hs & Hrun & Hrest).
        replace (rev piece ++ c :: s)
          with (rev piece ++ (c :: run) ++ JsString.trim_start s)
          by (simpl; now rewrite <- Hs).
        apply ws_split_run; try assumption.
        -- now apply Forall_rev.
        -- discriminate.
        -- now constructor.
        -- apply (IH (JsString.trim_start s) []); [|constructor].
           pose proof (trim_start_length s). lia.
      * replace (rev piece ++ c :: s) with (rev (c :: piece) ++ s)
          by (simpl; now rewrite <- app_assoc).
        apply IH; [lia | now constructor].
Qed.

Lemma split_ws_spec (s : jsstring) : ws_split s (JsString.split_ws s).
Proof.
  apply (split_ws_from_piece (n := List.length s) s (piece := []));
    [lia | constructor].
Qed.

(** A string has one decomposition into a prefix of units of one kind
    and a rest that does not start with a unit of that kind. *)
Lemma span_unique (P Q : JsString.code_unit -> Prop) (p1 p2 s1 s2 : jsstring) :
  (forall c, P c -> Q c -> False) ->
  Forall P p1 -> Forall P p2 ->
  match s1 with [] => True | c :: _ => Q c end ->
  match s2 with [] => True | c :: _ => Q c end ->
  p1 ++ s1 = p2 ++ s2 ->
  p1 = p2 /\ s1 = s2.
Proof.
  intros Hex H1. revert p2. induction H1 as [|c p1 Hc H1 IH];
    intros p2 H2 Hs1 Hs2 E.
  - destruct H2 as [|d p2 Hd H2]; simpl in *; [now split|].
    subst s1. exfalso. now apply (Hex d).
  - destruct H2 as [|d p2 Hd H2]; simpl in *.
    + subst s2. exfalso. now apply (Hex c).
    + injection E as -> E. destruct (IH p2 H2 Hs1 Hs2 E) as [-> ->].
      now split.
Qed.

(** The pieces of a string are determined by the string. *)
Lemma ws_split_unique (s : jsstring) (pieces1 pieces2 : list jsstring) :
  ws_split s pieces1 -> ws_split s pieces2 -> pieces1 = pieces2.
Proof.
  assert (Hex : forall c : JsString.code_unit,
             JsString.is_white_space c = false ->
             JsString.is_white_space c = true -> False) by congruence.
  assert (Hex' : forall c : JsString.code_unit,
             JsString.is_white_space c = true ->
             JsString.is_white_space c = false -> False) by congruence.
  assert (Hhead : forall run rest : jsstring,
             run <> [] ->
             Forall (fun c => JsString.is_white_space c = true) run ->
             match run ++ rest with
             | [] => True
             | c :: _ => JsString.is_white_space c = true
             end).
  { intros [|c run] rest Hne Hrun; [congruence|]. now inversion Hrun. }
  intros H1. revert pieces2.
  induction H1 as [piece Hp|piece run rest pieces Hp Hne Hrun Hrest H1 IH];
    intros pieces2 H2.
  - inversion H2 as [piece' Hp' E1 E2
                    |piece' run' rest' pieces' Hp' Hne' Hrun' Hrest' H2' E1 E2];
      subst; [reflexivity|].
    exfalso.
    destruct (@span_unique _ _ (piece' ++ run' ++ rest') piece' []
                (run' ++ rest') Hex Hp Hp' I (Hhead _ _ Hne' Hrun'))
      as [_ E].
    { now rewrite app_nil_r. }
    destruct run'; [congruence | discriminate E].
  - inversion H2 as [piece' Hp' E1 E2
                    |piece' run' rest' pieces' Hp' Hne' Hrun' Hrest' H2' E1 E2];
      subst.
    + exfalso.
      destruct (@span_unique _ _ piece (piece ++ run ++ rest) (run ++ rest) []
                  Hex Hp Hp' (Hhead _ _ Hne Hrun) I)
        as [_ E].
      { now rewrite app_nil_r. }
      destruct run; [congruence | discriminate E].
    + destruct (@span_unique _ _ piece piece' (run ++ rest) (run' ++ rest')
                  Hex Hp Hp' (Hhead _ _ Hne Hrun) (Hhead _ _ Hne' Hrun'))
        as [-> E]; [congruence|].
      destruct (@span_unique _ _ run run' rest rest' Hex' Hrun Hrun'
                  Hrest Hrest' E) as [-> ->].
      f_equal. now apply IH.
Qed.

(** The six deletions, one symbol at a time, delete the symbols. *)
Lemma remove_symbols_strip (w : jsstring) :
  fold_left (fun w symbol => JsString.remove_all symbol w) symbols w
  = strip_symbols w.
Proof.
  unfold symbols, strip_symbols, JsString.remove_all, is_symbol. simpl.
  induction w as [|c w IH]; [reflexivity|].
  simpl.
  destruct (N.eqb c 40) eqn:E1; simpl; [assumption|].
  destruct (N.eqb c 41) eqn:E2; simpl; [assumption|].
  destruct (N.eqb c 45) eqn:E3; simpl; [assumption|].
  destruct (N.eqb c 46) eqn:E4; simpl; [assumption|].
  destruct (N.eqb c 44) eqn:E5; simpl; [assumption|].
  destruct (N.eqb c 63) eqn:E6; simpl; [assumption|].
  now f_equal.
Qed.

Lemma remove_symbols_map (l : jsstring) (words : list jsstring) :
  fold_left (fun words symbol => map (JsString.remove_all symbol) words) l words
  = map (fun w => fold_left (fun w symbol => JsString.remove_all symbol w) l w)
      words.
Proof.
  revert words; induction l as [|symbol l IH]; intros words; simpl.
  - now rewrite map_id.
  - rewrite IH, map_map. reflexivity.
Qed.

Lemma skip_words_stop_words (w : jsstring) :
  JsString.includes skip_words w = is_stop_word w.
Proof.
  destruct (is_stop_word w) eqn:E.
  - apply includes_In. apply includes_In in E.
    unfold stop_words, skip_words in *. simpl in *. intuition.
  - destruct (JsString.includes skip_words w) eqn:F; [|reflexivity].
    rewrite <- E. symmetry. apply includes_In. apply includes_In in F.
    unfold stop_words, skip_words in *. simpl in *. intuition.
Qed.

Lemma filter_andb {A : Type} (f g : A -> bool) (l : list A) :
  filter (fun x => f x && g x) l = filter g (filter f l).
Proof.
  induction l as [|x l IH]; simpl; [reflexivity|].
  destruct (f x); simpl; [destruct (g x)|]; now rewrite IH.
Qed.

Lemma extract_words_tokenize (remark : jsstring) :
  extract_words remark = tokenize_spec (JsString.split_ws remark).
Proof.
  unfold extract_words, tokenize_spec.
  rewrite remove_symbols_map, filter_andb.
  rewrite (map_ext _ _ remove_symbols_strip).
  erewrite (filter_ext (fun word => 0 <? List.length word)); [|apply truthy_nonempty].
  apply filter_ext. intros w. now rewrite skip_words_stop_words.
Qed.

Lemma extract_words_nonempty (remark w : jsstring) :
  In w (extract_words remark) -> w <> [].
Proof.
  unfold extract_words. rewrite filter_In. intros [_ H].
  apply andb_prop in H as [H _]. destruct w; [discriminate H | discriminate].
Qed.

Example split_ws_edges :
  JsString.split_ws (JsString.lit " a  b ")
  = map JsString.lit [""; "a"; "b"; ""]%string.
Proof. reflexivity. Qed.

Example extract_words_scenario :
  extract_words scenario_remark
  = map JsString.lit
      ["team:"; "demo"; "lanna"; "sofia"; "colab"; "box"; "model"; "training"]%string.
Proof. reflexivity. Qed.

Example extract_words_punctuation :
  extract_words (JsString.lit "  (re-do)  To to- a.b?, --  x ")
  = map JsString.lit ["redo"; "To"; "ab"; "x"]%string.
Proof. reflexivity. Qed.

Example extract_words_stop_words :
  extract_words (JsString.lit "the of on") = [].
Proof. reflexivity. Qed.

(** C4: the tokenizer splits the remark on runs of white space, deletes
    every ( ) - . , ? from each piece, drops the pieces that became empty
    and the stop words (compared as they are, case included), and keeps
    the other tokens in the order of the remark, duplicates included. *)
Theorem tokenize_refines_spec (remark : jsstring) :
  ws_split remark (JsString.split_ws remark)
  /\ extract_words remark
     = filter (fun token => negb (JsString.includes stop_words token))
         (filter (fun token => negb (JsString.eqb token []))
            (map (filter (fun c => negb (is_symbol c)))
               (JsString.split_ws remark))).
Proof.
  split; [apply split_ws_spec | apply extract_words_tokenize].
Qed.

(** ** Maps and sets *)

Section JsMapFacts.

Context {V : Type}.
Implicit Types (m : JsMap.t V) (k : jsstring) (v : V).

Lemma get_set m k k' v :
  JsMap.get k' (JsMap.set k v m)
  = if JsString.eqb k' k then Some v else JsMap.get k' m.
Proof.
  induction m as [|[k0 v0] m IH]; simpl; [reflexivity|].
  destruct (JsString.eqb k k0) eqn:E; simpl.
  - apply jsstring_eqb_eq in E. subst k0.
    now destruct (JsString.eqb k' k).
  - destruct (JsString.eqb k' k0) eqn:F; [|assumption].
    apply jsstring_eqb_eq in F. subst k0.
    now rewrite jsstring_eqb_sym, E.
Qed.

Lemma get_set_same m k v : JsMap.get k (JsMap.set k v m) = Some v.
Proof. now rewrite get_set, jsstring_eqb_refl. Qed.

Lemma get_In_keys m k : JsMap.get k m <> None <-> In k (JsMap.keys m).
Proof.
  induction m as [|[k0 v0] m IH]; simpl; [tauto|].
  destruct (JsString.eqb k k0) eqn:E.
  - apply jsstring_eqb_eq in E. subst. split; [now left | discriminate].
  - apply jsstring_eqb_neq in E. rewrite IH. split; [now right|].
    intros [H|H]; [congruence | assumption].
Qed.

Lemma get_None_keys m k : JsMap.get k m = None <-> ~ In k (JsMap.keys m).
Proof.
  rewrite <- get_In_keys. destruct (JsMap.get k m); split; try congruence.
  intros H. exfalso. apply H. discriminate.
Qed.

Lemma keys_set m k v :
  JsMap.keys (JsMap.set k v m)
  = match JsMap.get k m with
    | Some _ => JsMap.keys m
    | None => JsMap.keys m ++ [k]
    end.
Proof.
  induction m as [|[k0 v0] m IH]; simpl; [reflexivity|].
  destruct (JsString.eqb k k0) eqn:E; simpl; [reflexivity|].
  rewrite IH. now destruct (JsMap.get k m).
Qed.

Lemma NoDup_keys_set m k v :
  NoDup (JsMap.keys m) -> NoDup (JsMap.keys (JsMap.set k v m)).
Proof.
  intros H. rewrite keys_set. destruct (JsMap.get k m) eqn:E; [assumption|].
  apply get_None_keys in E.
  apply NoDup_rev in H. rewrite <- (rev_involutive (_ ++ _)).
  apply NoDup_rev. rewrite rev_app_distr. simpl. constructor; [|assumption].
  now rewrite <- in_rev.
Qed.

Lemma In_get m k v :
  NoDup (JsMap.keys m) -> In (k, v) m -> JsMap.get k m = Some v.
Proof.
  induction m as [|[k0 v0] m IH]; simpl; [tauto|].
  intros Hnd [H|H].
  - injection H as -> ->. now rewrite jsstring_eqb_refl.
  - inversion Hnd as [|? ? Hk0 Hm]; subst.
    destruct (JsString.eqb k k0) eqn:E; [|now apply IH].
    apply jsstring_eqb_eq in E. subst k0.
    exfalso. apply Hk0. change k with (fst (k, v)). now apply in_map.
Qed.

Lemma get_In m k v : JsMap.get k m = Some v -> In (k, v) m.
Proof.
  induction m as [|[k0 v0] m IH]; simpl; [discriminate|].
  destruct (JsString.eqb k k0) eqn:E.
  - apply jsstring_eqb_eq in E. subst k0. intros H. injection H as ->.
    now left.
  - intros H. right. now apply IH.
Qed.

(** Setting the pairs of a map with distinct keys, one by one, on the
    empty map copies the map. *)
Lemma fold_set_copy (f : V -> V) m (acc : JsMap.t V) :
  NoDup (JsMap.keys acc ++ JsMap.keys m) ->
  fold_left (fun acc '(k, v) => JsMap.set k (f v) acc) m acc
  = acc ++ map (fun '(k, v) => (k, f v)) m.
Proof.
  revert acc; induction m as [|[k v] m IH]; intros acc Hnd; simpl.
  - now rewrite app_nil_r.
  - assert (Hk : JsMap.get k acc = None).
    { apply get_None_keys. intros Hin.
      apply NoDup_remove_2 in Hnd. apply Hnd.
      apply in_or_app. now left. }
    assert (Hset : JsMap.set k (f v) acc = acc ++ [(k, f v)]).
    { clear - Hk. induction acc as [|[k0 v0] acc IHa]; simpl in *;
        [reflexivity|].
      destruct (JsString.eqb k k0); [discriminate|]. now rewrite IHa. }
    rewrite Hset, IH.
    + now rewrite <- app_assoc.
    + unfold JsMap.keys in *. rewrite map_app. simpl.
      now rewrite <- app_assoc.
Qed.

End JsMapFacts.

Lemma get_map {V W : Type} (f : V -> W) (m : JsMap.t V) (k : jsstring) :
  JsMap.get k (map (fun '(k, v) => (k, f v)) m) = option_map f (JsMap.get k m).
Proof.
  induction m as [|[k0 v0] m IH]; simpl; [reflexivity|].
  now destruct (JsString.eqb k k0).
Qed.

Lemma keys_map {V W : Type} (f : V -> W) (m : JsMap.t V) :
  JsMap.keys (map (fun '(k, v) => (k, f v)) m) = JsMap.keys m.
Proof.
  unfold JsMap.keys. rewrite map_map. apply map_ext. now intros [k v].
Qed.

Lemma from_array_fold (array : list jsstring) (s : JsSet.t) :
  NoDup s ->
  NoDup (fold_left (fun s x => JsSet.add x s) array s)
  /\ forall w,
       In w (fold_left (fun s x => JsSet.add x s) array s)
       <-> In w s \/ In w array.
Proof.
  revert s; induction array as [|x array IH]; intros s Hs; simpl.
  - split; [assumption | tauto].
  - assert (Hadd : NoDup (JsSet.add x s)
                   /\ forall w, In w (JsSet.add x s) <-> In w s \/ x = w).
    { unfold JsSet.add. destruct (JsString.includes s x) eqn:E.
      - apply includes_In in E. split; [assumption|].
        intros w. split; [tauto|]. intros [H| <-]; assumption.
      - assert (~ In x s) by (rewrite <- includes_In; congruence).
        split.
        + apply NoDup_rev in Hs. rewrite <- (rev_involutive (_ ++ _)).
          apply NoDup_rev. rewrite rev_app_distr. simpl.
          constructor; [now rewrite <- in_rev | assumption].
        + intros w. rewrite in_app_iff. simpl. tauto. }
    destruct Hadd as [Hnd Hin].
    destruct (IH _ Hnd) as [IH1 IH2]. split; [assumption|].
    intros w. rewrite IH2, Hin. tauto.
Qed.

Lemma from_array_NoDup (array : list jsstring) : NoDup (JsSet.from_array array).
Proof. apply from_array_fold. constructor. Qed.

Lemma from_array_In (array : list jsstring) (w : jsstring) :
  In w (JsSet.from_array array) <-> In w array.
Proof.
  unfold JsSet.from_array.
  destruct (from_array_fold array (s := [])) as [_ H]; [constructor|].
  rewrite H. simpl. tauto.
Qed.

Lemma from_array_includes (array : list jsstring) (w : jsstring) :
  JsString.includes (JsSet.from_array array) w = JsString.includes array w.
Proof.
  destruct (JsString.includes array w) eqn:E.
  - apply includes_In, from_array_In, includes_In, E.
  - destruct (JsString.includes (JsSet.from_array array) w) eqn:F;
      [|reflexivity].
    rewrite <- E. symmetry.
    apply includes_In, from_array_In, includes_In, F.
Qed.

(** ** The two passes over one remark *)

Lemma first_pass_step_get (entries : JsMap.t Word) (w w' : jsstring) :
  JsMap.get w' (first_pass_step entries w)
  = if JsString.eqb w' w
    then Some (inc_document_frequency (entry_or_new w (JsMap.get w entries)))
    else JsMap.get w' entries.
Proof.
  unfold first_pass_step. destruct (JsMap.get w entries) as [e|]; simpl.
  - apply get_set.
  - rewrite !get_set. now destruct (JsString.eqb w' w).
Qed.

Lemma first_pass_step_NoDup (entries : JsMap.t Word) (w : jsstring) :
  NoDup (JsMap.keys entries) -> NoDup (JsMap.keys (first_pass_step entries w)).
Proof.
  intros H. unfold first_pass_step.
  destruct (JsMap.get w entries); repeat apply NoDup_keys_set; assumption.
Qed.

Lemma first_pass_NoDup (ws : JsSet.t) (entries : JsMap.t Word) :
  NoDup (JsMap.keys entries) -> NoDup (JsMap.keys (first_pass ws entries)).
Proof.
  revert entries; induction ws as [|x ws IH]; intros entries H; simpl;
    [assumption|].
  apply IH. now apply first_pass_step_NoDup.
Qed.

(** The first pass increments the document frequency of every word of
    the set once, on a fresh entry if the word is new, and leaves the
    other slots alone. *)
Lemma first_pass_get (ws : JsSet.t) :
  forall (entries : JsMap.t Word) (w : jsstring),
    NoDup ws ->
    JsMap.get w (first_pass ws entries)
    = if JsString.includes ws w
      then Some (inc_document_frequency (entry_or_new w (JsMap.get w entries)))
      else JsMap.get w entries.
Proof.
  induction ws as [|x ws IH]; intros entries w Hnd; [reflexivity|].
  inversion Hnd as [|? ? Hx Hws]; subst.
  change (first_pass (x :: ws) entries)
    with (first_pass ws (first_pass_step entries x)).
  rewrite (IH _ _ Hws), first_pass_step_get.
  change (JsString.includes (x :: ws) w)
    with (JsString.eqb w x || JsString.includes ws w).
  destruct (JsString.eqb w x) eqn:E; simpl; [|reflexivity].
  apply jsstring_eqb_eq in E. subst x.
  destruct (JsString.includes ws w) eqn:F; [|reflexivity].
  apply includes_In in F. contradiction.
Qed.

Lemma occurrences_cons (w x : jsstring) (words : list jsstring) :
  occurrences w (x :: words)
  = if JsString.eqb w x then S (occurrences w words) else occurrences w words.
Proof. unfold occurrences. simpl. now destruct (JsString.eqb w x). Qed.

Lemma occurrences_includes (w : jsstring) (words : list jsstring) :
  JsString.includes words w = (0 <? occurrences w words).
Proof.
  induction words as [|x words IH]; [reflexivity|].
  rewrite occurrences_cons.
  change (JsString.includes (x :: words) w)
    with (JsString.eqb w x || JsString.includes words w).
  destruct (JsString.eqb w x); simpl; [reflexivity | assumption].
Qed.

(** The second pass does not raise when every word has a slot, and it
    counts each word as often as it occurs. *)
Lemma second_pass_get (task : jsstring) (words : list jsstring) :
  forall entries : JsMap.t Word,
    (forall w, In w words -> JsMap.get w entries <> None) ->
    exists entries',
      second_pass task words entries = Ok entries'
      /\ (NoDup (JsMap.keys entries) -> NoDup (JsMap.keys entries'))
      /\ forall w,
           JsMap.get w entries'
           = option_map (Nat.iter (occurrences w words) (count_occurrence task))
               (JsMap.get w entries).
Proof.
  induction words as [|x words IH]; intros entries Hdef.
  - exists entries. split; [reflexivity|]. split; [tauto|].
    intros w. simpl. now destruct (JsMap.get w entries).
  - unfold second_pass. simpl. unfold second_pass_step at 1.
    destruct (JsMap.get x entries) as [e|] eqn:Ex;
      [|exfalso; apply (Hdef x); [now left | assumption]].
    destruct (IH (JsMap.set x (count_occurrence task e) entries))
      as (entries' & Hrun & Hnd & Hget).
    { intros w Hw. rewrite get_set.
      destruct (JsString.eqb w x); [discriminate|].
      apply Hdef. now right. }
    exists entries'. split; [exact Hrun|]. split.
    { intros H. apply Hnd. now apply NoDup_keys_set. }
    intros w. rewrite Hget, get_set, occurrences_cons.
    destruct (JsString.eqb w x) eqn:E; [|reflexivity].
    apply jsstring_eqb_eq in E. subst x. rewrite Ex. simpl.
    now rewrite Nat.iter_swap.
Qed.

Lemma count_occurrence_iter (task : jsstring) (n : nat) (e : Word) :
  word (Nat.iter n (count_occurrence task) e) = word e
  /\ document_frequency (Nat.iter n (count_occurrence task) e)
     = document_frequency e
  /\ total_occurrence (Nat.iter n (count_occurrence task) e)
     = total_occurrence e + n
  /\ idf_score (Nat.iter n (count_occurrence task) e) = idf_score e.
Proof.
  induction n as [|n (Hw & Hdf & Htot & Hidf)]; simpl.
  - repeat split. lia.
  - repeat split; try assumption. rewrite Htot. lia.
Qed.

(** Every lookup of the second pass finds the slot the first pass made
    or kept for the word. *)
Lemma first_pass_defines (words : list jsstring) (entries : JsMap.t Word)
  (w : jsstring) :
  In w words ->
  exists e, JsMap.get w (first_pass (JsSet.from_array words) entries) = Some e.
Proof.
  intros Hw. rewrite first_pass_get by apply from_array_NoDup.
  rewrite from_array_includes.
  apply includes_In in Hw. rewrite Hw. eauto.
Qed.

(** The two passes over the words of one remark. *)
Lemma passes_get (task : jsstring) (words : list jsstring)
  (entries : JsMap.t Word) :
  exists entries',
    second_pass task words (first_pass (JsSet.from_array words) entries)
    = Ok entries'
    /\ (NoDup (JsMap.keys entries) -> NoDup (JsMap.keys entries'))
    /\ forall w,
         JsMap.get w entries'
         = if JsString.includes words w
           then Some (Nat.iter (occurrences w words) (count_occurrence task)
                        (inc_document_frequency
                           (entry_or_new w (JsMap.get w entries))))
           else JsMap.get w entries.
Proof.
  destruct (second_pass_get task words
              (first_pass (JsSet.from_array words) entries))
    as (entries' & Hrun & Hnd & Hget).
  { intros w Hw. destruct (first_pass_defines words entries w Hw) as [e ->].
    discriminate. }
  exists entries'. split; [exact Hrun|]. split.
  { intros H. apply Hnd. now apply first_pass_NoDup. }
  intros w. rewrite Hget, first_pass_get by apply from_array_NoDup.
  rewrite from_array_includes.
  destruct (JsString.includes words w) eqn:E; [reflexivity|].
  rewrite occurrences_includes in E.
  apply Nat.ltb_ge in E. assert (occurrences w words = 0) as -> by lia.
  simpl. now destruct (JsMap.get w entries).
Qed.

(** ** The training loop *)

Lemma train_row_unlabeled (model : Model) (row : Row) :
  is_labeled row = false -> train_row model row = Ok model.
Proof. unfold train_row, is_labeled. now intros ->. Qed.

Lemma train_row_labeled (model : Model) (row : Row) :
  is_labeled row = true ->
  exists entries',
    train_row model row
    = Ok {| word_entries := entries'; total_remarks := total_remarks model + 1 |}
    /\ (NoDup (JsMap.keys (word_entries model)) -> NoDup (JsMap.keys entries'))
    /\ forall w,
         JsMap.get w entries'
         = if JsString.includes (remark_tokens row) w
           then Some (Nat.iter (occurrences w (remark_tokens row))
                        (count_occurrence (or_empty (Task row)))
                        (inc_document_frequency
                           (entry_or_new w (JsMap.get w (word_entries model)))))
           else JsMap.get w (word_entries model).
Proof.
  unfold train_row, is_labeled. intros ->. simpl.
  destruct (passes_get (or_empty (Task row)) (remark_tokens row)
              (word_entries model)) as (entries' & Hrun & Hnd & Hget).
  exists entries'. unfold remark_tokens in *. rewrite Hrun. auto.
Qed.

Lemma labeled_rows_snoc (rows : list Row) (row : Row) :
  labeled_rows (rows ++ [row])
  = labeled_rows rows ++ (if is_labeled row then [row] else []).
Proof. unfold labeled_rows. rewrite filter_app. reflexivity. Qed.

Lemma remarks_containing_snoc (w : jsstring) (rows : list Row) (row : Row) :
  remarks_containing w (rows ++ [row])
  = remarks_containing w rows
    + (if is_labeled row && JsString.includes (remark_tokens row) w
       then 1 else 0).
Proof.
  unfold remarks_containing. rewrite labeled_rows_snoc, filter_app, length_app.
  f_equal. destruct (is_labeled row); simpl; [|reflexivity].
  now destruct (JsString.includes (remark_tokens row) w).
Qed.

Lemma total_occurrences_snoc (w : jsstring) (rows : list Row) (row : Row) :
  total_occurrences w (rows ++ [row])
  = total_occurrences w rows
    + (if is_labeled row then occurrences w (remark_tokens row) else 0).
Proof.
  unfold total_occurrences. rewrite labeled_rows_snoc, map_app, list_sum_app.
  f_equal. destruct (is_labeled row); simpl; lia.
Qed.

Lemma counts_ok_initial : counts_ok [] initial_model.
Proof.
  repeat split; simpl; constructor.
Qed.

(** One round of the training loop keeps the recount invariant. *)
Lemma train_row_counts_ok (rows : list Row) (model : Model) (row : Row) :
  counts_ok rows model ->
  exists model',
    train_row model row = Ok model' /\ counts_ok (rows ++ [row]) model'.
Proof.
  intros (Htotal & Hnd & Hslots).
  destruct (is_labeled row) eqn:L.
  - destruct (train_row_labeled model row L) as (entries' & Hrun & Hnd' & Hget).
    eexists. split; [exact Hrun|]. repeat split; simpl.
    + rewrite labeled_rows_snoc, L, length_app, Htotal. reflexivity.
    + auto.
    + intros w. rewrite Hget. specialize (Hslots w). unfold slot_ok in *.
      rewrite remarks_containing_snoc, total_occurrences_snoc, L. simpl.
      destruct (JsString.includes (remark_tokens row) w) eqn:I.
      * destruct (count_occurrence_iter (or_empty (Task row))
                    (occurrences w (remark_tokens row))
                    (inc_document_frequency
                       (entry_or_new w (JsMap.get w (word_entries model)))))
          as (Hw & Hdf & Htot & _).
        rewrite Hw, Hdf, Htot.
        destruct (JsMap.get w (word_entries model)) as [e|]; simpl in *.
        -- destruct Hslots as (? & ? & ? & ?). repeat split; lia || assumption.
        -- destruct Hslots as (-> & ->). repeat split; lia.
      * rewrite occurrences_includes in I. apply Nat.ltb_ge in I.
        assert (occurrences w (remark_tokens row) = 0) as -> by lia.
        rewrite !Nat.add_0_r. exact Hslots.
  - exists model. split; [now apply train_row_unlabeled|].
    repeat split.
    + rewrite labeled_rows_snoc, L, app_nil_r. exact Htotal.
    + exact Hnd.
    + intros w. specialize (Hslots w). unfold slot_ok in *.
      rewrite remarks_containing_snoc, total_occurrences_snoc, L. simpl.
      now rewrite !Nat.add_0_r.
Qed.

Lemma for_of_train_row (rows : list Row) :
  forall (done : list Row) (model : Model),
    counts_ok done model ->
    exists model',
      for_of train_row rows model = Ok model'
      /\ counts_ok (done ++ rows) model'.
Proof.
  induction rows as [|row rows IH]; intros done model H; simpl.
  - exists model. now rewrite app_nil_r.
  - destruct (train_row_counts_ok row H) as (model1 & -> & H1).
    destruct (IH _ _ H1) as (model' & Hrun & H').
    exists model'. split; [exact Hrun|].
    now rewrite <- app_assoc in H'.
Qed.

(** The training loop never raises, and its counters agree with a
    recount over the rows. *)
Lemma train_counts_ok (rows : list Row) :
  exists model, train_counts rows = Ok model /\ counts_ok rows model.
Proof. apply (for_of_train_row rows counts_ok_initial). Qed.

(** The IDF loop fills in the score of every entry and changes nothing
    else. *)
Lemma idf_pass_get (model : Model) (w : jsstring) :
  JsMap.get w (word_entries (idf_pass model))
  = option_map (set_idf_score (total_remarks model))
      (JsMap.get w (word_entries model)).
Proof. unfold idf_pass. simpl. apply get_map. Qed.

Lemma train_spec (rows : list Row) :
  exists counts,
    train_counts rows = Ok counts
    /\ train rows = Ok (idf_pass counts)
    /\ counts_ok rows counts.
Proof.
  destruct (train_counts_ok rows) as (counts & Hrun & Hok).
  exists counts. unfold train. rewrite Hrun. auto.
Qed.

(** A look at a trained slot is a look at the counted slot. *)
Lemma trained_get (counts : Model) (w : jsstring) (e : Word) :
  JsMap.get w (word_entries (idf_pass counts)) = Some e ->
  exists e0,
    JsMap.get w (word_entries counts) = Some e0
    /\ e = set_idf_score (total_remarks counts) e0.
Proof.
  rewrite idf_pass_get. destruct (JsMap.get w (word_entries counts)) as [e0|];
    simpl; [|discriminate].
  intros H. injection H as <-. eauto.
Qed.

Lemma remarks_containing_le_total (w : jsstring) (rows : list Row) :
  remarks_containing w rows <= total_occurrences w rows.
Proof.
  unfold remarks_containing, total_occurrences.
  induction (labeled_rows rows) as [|row l IH]; simpl; [lia|].
  rewrite occurrences_includes.
  destruct (0 <? occurrences w (remark_tokens row)) eqn:E; simpl.
  - apply Nat.ltb_lt in E. lia.
  - lia.
Qed.

Lemma remarks_containing_le_labeled (w : jsstring) (rows : list Row) :
  remarks_containing w rows <= List.length (labeled_rows rows).
Proof. unfold remarks_containing. apply filter_length_le. Qed.

Lemma remarks_containing_pos (w : jsstring) (rows : list Row) :
  0 < remarks_containing w rows
  <-> exists row,
        In row rows /\ is_labeled row = true /\ In w (remark_tokens row).
Proof.
  unfold remarks_containing, labeled_rows. split.
  - intros H.
    destruct (filter (fun row => JsString.includes (remark_tokens row) w)
                (filter is_labeled rows)) as [|row l] eqn:E;
      [simpl in H; lia|].
    assert (Hin : In row (row :: l)) by now left.
    rewrite <- E in Hin. apply filter_In in Hin as [Hin Hw].
    apply filter_In in Hin as [Hin Hl].
    exists row. repeat split; try assumption. now apply includes_In.
  - intros (row & Hin & Hl & Hw).
    assert (H : In row (filter (fun row => JsString.includes (remark_tokens row) w)
                          (filter is_labeled rows))).
    { apply filter_In. split; [apply filter_In; now split|].
      now apply includes_In. }
    destruct (filter _ (filter is_labeled rows)); [contradiction|].
    simpl. lia.
Qed.

Lemma for_of_train_row_labeled (rows : list Row) :
  forall model : Model,
    for_of train_row (labeled_rows rows) model = for_of train_row rows model.
Proof.
  induction rows as [|row rows IH]; intros model; [reflexivity|].
  unfold labeled_rows. simpl. destruct (is_labeled row) eqn:L.
  - simpl. destruct (train_row model row); [apply IH | reflexivity].
  - rewrite (train_row_unlabeled model row L). apply IH.
Qed.

Lemma train_labeled_rows (rows : list Row) :
  train (labeled_rows rows) = train rows.
Proof.
  unfold train, train_counts. now rewrite for_of_train_row_labeled.
Qed.

Lemma train_row_no_tokens (model : Model) (row : Row) :
  is_labeled row = true ->
  remark_tokens row = [] ->
  train_row model row
  = Ok {| word_entries := word_entries model;
          total_remarks := total_remarks model + 1 |}.
Proof.
  unfold train_row, is_labeled, remark_tokens. intros -> ->. reflexivity.
Qed.

(** C1: after training, the document frequency of a stored word is the
    number of labeled rows whose tokens contain the word, and a word has
    an entry exactly when it occurs in the tokens of some labeled row. *)
Theorem document_frequency_recount (rows : list Row) :
  exists model,
    train rows = Ok model
    /\ (forall w e,
          JsMap.get w (word_entries model) = Some e ->
          document_frequency e = remarks_containing w rows)
    /\ (forall w,
          (exists e, JsMap.get w (word_entries model) = Some e)
          <-> (exists row,
                  In row rows /\ is_labeled row = true
                  /\ In w (remark_tokens row))).
Proof.
  destruct (train_spec rows) as (counts & _ & Hrun & _ & _ & Hslots).
  exists (idf_pass counts). split; [exact Hrun|]. split.
  - intros w e He. apply trained_get in He as (e0 & He0 & ->).
    specialize (Hslots w). rewrite He0 in Hslots.
    destruct Hslots as (_ & Hdf & _). exact Hdf.
  - intros w. rewrite <- remarks_containing_pos, idf_pass_get.
    specialize (Hslots w).
    destruct (JsMap.get w (word_entries counts)) as [e0|]; simpl in *.
    + split; [lia | eauto].
    + split; [intros [e He]; discriminate | lia].
Qed.

Lemma document_frequency_recount_witness :
  exists model e,
    train scenario_rows = Ok model
    /\ JsMap.get (JsString.lit "demo") (word_entries model) = Some e
    /\ document_frequency e = 1.
Proof.
  destruct (document_frequency_recount scenario_rows)
    as (model & Hrun & Hdf & Hex).
  destruct (proj2 (Hex (JsString.lit "demo"))) as [e He].
  { exists (labeled_row "animal-ai"
              "team: demo sofia and lanna on box model training").
    split; [right; left; reflexivity|].
    split; [reflexivity|]. apply includes_In. vm_compute. reflexivity. }
  exists model, e. split; [exact Hrun|]. split; [exact He|].
  rewrite (Hdf _ _ He). vm_compute. reflexivity.
Defined.

(** C2: after training, every stored entry has a document frequency
    other than zero and the IDF score [ln (total_remarks /
    document_frequency)]; a word of exactly one of the [N] labeled
    remarks has the score [ln N]. *)
Theorem idf_score_formula (rows : list Row) :
  exists model,
    train rows = Ok model
    /\ total_remarks model = List.length (labeled_rows rows)
    /\ (forall w e,
          JsMap.get w (word_entries model) = Some e ->
          document_frequency e <> 0
          /\ idf_score e
             = Some (ln (INR (total_remarks model)
                         / INR (document_frequency e)))%R)
    /\ (forall w,
          remarks_containing w rows = 1 ->
          exists e,
            JsMap.get w (word_entries model) = Some e
            /\ idf_score e
               = Some (ln (INR (List.length (labeled_rows rows))))).
Proof.
  destruct (train_spec rows) as (counts & _ & Hrun & Htotal & _ & Hslots).
  exists (idf_pass counts). split; [exact Hrun|]. split; [exact Htotal|]. split.
  - intros w e He. apply trained_get in He as (e0 & He0 & ->).
    specialize (Hslots w). rewrite He0 in Hslots. simpl in *.
    split; [lia | reflexivity].
  - intros w Hone. rewrite idf_pass_get. specialize (Hslots w).
    destruct (JsMap.get w (word_entries counts)) as [e0|]; simpl in *.
    + exists (set_idf_score (total_remarks counts) e0). split; [reflexivity|].
      destruct Hslots as (_ & Hdf & _). simpl.
      rewrite Hdf, Hone, Htotal. simpl. do 2 f_equal.
      unfold Rdiv. now rewrite Rinv_1, Rmult_1_r.
    + lia.
Qed.

Lemma idf_score_formula_witness :
  exists model e,
    train scenario_rows = Ok model
    /\ JsMap.get (JsString.lit "demo") (word_entries model) = Some e
    /\ document_frequency e <> 0
    /\ idf_score e = Some (ln (INR 2)).
Proof.
  destruct (idf_score_formula scenario_rows)
    as (model & Hrun & _ & Hidf & Hone).
  destruct (Hone (JsString.lit "demo")) as (e & He & Hscore);
    [vm_compute; reflexivity|].
  exists model, e. split; [exact Hrun|]. split; [exact He|].
  split; [exact (proj1 (Hidf _ _ He)) | exact Hscore].
Defined.

(** C7: after training, [total_remarks] is the number of rows with a
    non-empty task.  A labeled row whose remark has no tokens is counted
    and changes no entry; a row without a task changes nothing, so
    training on all rows is training on the labeled rows. *)
Theorem total_remarks_counts_labeled (rows : list Row) :
  exists model,
    train rows = Ok model
    /\ total_remarks model = List.length (labeled_rows rows)
    /\ train (labeled_rows rows) = Ok model
    /\ (forall model0 row,
          is_labeled row = false -> train_row model0 row = Ok model0)
    /\ (forall model0 row,
          is_labeled row = true ->
          remark_tokens row = [] ->
          train_row model0 row
          = Ok {| word_entries := word_entries model0;
                  total_remarks := total_remarks model0 + 1 |}).
Proof.
  destruct (train_spec rows) as (counts & _ & Hrun & Htotal & _).
  exists (idf_pass counts). split; [exact Hrun|]. split; [exact Htotal|].
  split; [now rewrite train_labeled_rows|].
  split; [apply train_row_unlabeled | apply train_row_no_tokens].
Qed.

Lemma total_remarks_counts_labeled_witness :
  train_row initial_model {| Task := None; Remark := Some scenario_remark |}
  = Ok initial_model
  /\ train_row initial_model (labeled_row "website" "the of on")
     = Ok {| word_entries := JsMap.empty; total_remarks := 1 |}.
Proof.
  destruct (total_remarks_counts_labeled scenario_rows)
    as (model & _ & _ & _ & Hskip & Hcount).
  split.
  - apply Hskip. reflexivity.
  - apply (Hcount initial_model (labeled_row "website" "the of on"));
      vm_compute; reflexivity.
Defined.

(** C8: after training, every stored entry has [1 <= document_frequency
    <= total_occurrence]: a labeled row whose tokens contain a word adds
    one to the document frequency of the word and the number of its
    occurrences in the row, at least one, to its total occurrence. *)
Theorem document_frequency_bounds (rows : list Row) :
  exists model,
    train rows = Ok model
    /\ Forall
         (fun '(_, e) =>
            1 <= document_frequency e /\ document_frequency e <= total_occurrence e)
         (JsMap.entries (word_entries model))
    /\ (forall model0 row w,
          is_labeled row = true ->
          In w (remark_tokens row) ->
          exists model' e',
            train_row model0 row = Ok model'
            /\ JsMap.get w (word_entries model') = Some e'
            /\ document_frequency e'
               = document_frequency_of (JsMap.get w (word_entries model0)) + 1
            /\ total_occurrence e'
               = total_occurrence_of (JsMap.get w (word_entries model0))
                 + occurrences w (remark_tokens row)
            /\ 1 <= occurrences w (remark_tokens row)).
Proof.
  destruct (train_spec rows) as (counts & _ & Hrun & _ & Hnd & Hslots).
  exists (idf_pass counts). split; [exact Hrun|]. split.
  - apply Forall_forall. intros [w e] Hin.
    apply In_get in Hin.
    2:{ unfold JsMap.entries, idf_pass. simpl.
        now rewrite (keys_map (set_idf_score (total_remarks counts))). }
    apply trained_get in Hin as (e0 & He0 & ->).
    specialize (Hslots w). rewrite He0 in Hslots. simpl in *.
    pose proof (remarks_containing_le_total w rows). lia.
  - intros model0 row w L Hw.
    destruct (train_row_labeled model0 row L) as (entries' & Hrow & _ & Hget).
    apply includes_In in Hw.
    eexists. eexists. split; [exact Hrow|]. simpl. rewrite Hget, Hw.
    split; [reflexivity|].
    destruct (count_occurrence_iter (or_empty (Task row))
                (occurrences w (remark_tokens row))
                (inc_document_frequency
                   (entry_or_new w (JsMap.get w (word_entries model0)))))
      as (_ & -> & -> & _).
    rewrite occurrences_includes in Hw. apply Nat.ltb_lt in Hw.
    destruct (JsMap.get w (word_entries model0)); simpl; repeat split; lia.
Qed.

Lemma document_frequency_bounds_witness :
  exists model' e',
    train_row initial_model (labeled_row "website" "form (form) email")
    = Ok model'
    /\ JsMap.get (JsString.lit "form") (word_entries model') = Some e'
    /\ document_frequency e' = 1
    /\ total_occurrence e' = 2.
Proof.
  destruct (document_frequency_bounds scenario_rows) as (_ & _ & _ & Hrow).
  destruct (Hrow initial_model (labeled_row "website" "form (form) email")
              (JsString.lit "form"))
    as (model' & e' & Hrun & He' & Hdf & Htot & _).
  - reflexivity.
  - apply includes_In. vm_compute. reflexivity.
  - exists model', e'. repeat split; assumption.
Defined.

(** C10: in the second pass of the training loop every lookup
    [word_entries.get(word)!] finds an entry, because the first pass made
    or kept one for every word of the remark; so the pass does not raise,
    and neither does training. *)
Theorem second_pass_lookup_defined (rows : list Row) (entries : JsMap.t Word)
  (task : jsstring) (words : list jsstring) :
  Forall
    (fun w =>
       exists e,
         JsMap.get w (first_pass (JsSet.from_array words) entries) = Some e)
    words
  /\ (exists entries',
         second_pass task words (first_pass (JsSet.from_array words) entries)
         = Ok entries')
  /\ (exists model, train rows = Ok model).
Proof.
  split; [|split].
  - apply Forall_forall. intros w Hw. now apply first_pass_defines.
  - destruct (passes_get task words entries) as (entries' & Hrun & _).
    eauto.
  - destruct (train_spec rows) as (counts & _ & Hrun & _). eauto.
Qed.

(** ** Scoring *)

Lemma fold_left_Rplus (l : list R) (a : R) :
  fold_left Rplus l a = (a + fold_right Rplus 0 l)%R.
Proof.
  revert a; induction l as [|x l IH]; intros a; simpl; [lra|].
  rewrite IH. lra.
Qed.

Lemma total_of_sum (m : JsMap.t R) : total_of m = sum_of_probabilities m.
Proof.
  unfold total_of, sum_of_probabilities. rewrite fold_left_Rplus. lra.
Qed.

Lemma sum_of_scaled (c : R) (m : JsMap.t R) :
  sum_of_probabilities (map (fun '(k, v) => (k, (v / c)%R)) m)
  = (sum_of_probabilities m / c)%R.
Proof.
  unfold sum_of_probabilities, JsMap.values.
  induction m as [|[k v] m IH]; simpl.
  - unfold Rdiv. now rewrite Rmult_0_l.
  - rewrite IH. now rewrite Rdiv_plus_distr.
Qed.

Lemma score_or_zero_nonneg (m : JsMap.t R) (k : jsstring) :
  Forall (fun '(_, v) => (0 <= v)%R) m ->
  (0 <= score_or_zero (JsMap.get k m))%R.
Proof.
  intros H. destruct (JsMap.get k m) as [v|] eqn:E; simpl; [|lra].
  apply get_In in E. rewrite Forall_forall in H. apply (H (k, v) E).
Qed.

Lemma set_nonneg (m : JsMap.t R) (k : jsstring) (v : R) :
  Forall (fun '(_, v) => (0 <= v)%R) m ->
  (0 <= v)%R ->
  Forall (fun '(_, v) => (0 <= v)%R) (JsMap.set k v m).
Proof.
  intros H Hv. induction m as [|[k0 v0] m IH]; simpl.
  - constructor; [exact Hv | constructor].
  - inversion H; subst.
    destruct (JsString.eqb k k0); constructor; auto.
Qed.

Lemma distribute_nonneg (tfidf : R) (wordEntry : Word) (taskScores : JsMap.t R) :
  (0 <= tfidf)%R ->
  Forall (fun '(_, v) => (0 <= v)%R) taskScores ->
  Forall (fun '(_, v) => (0 <= v)%R) (distribute tfidf wordEntry taskScores).
Proof.
  intros Ht. unfold distribute, JsMap.entries.
  generalize (tasks wordEntry) as l.
  intros l; revert taskScores; induction l as [|[t c] l IH];
    intros taskScores H; simpl; [assumption|].
  apply IH. apply set_nonneg; [assumption|].
  apply Rplus_le_le_0_compat; [now apply score_or_zero_nonneg|].
  apply Rmult_le_pos; [assumption | apply pos_INR].
Qed.

Lemma distribute_NoDup (tfidf : R) (wordEntry : Word) (taskScores : JsMap.t R) :
  NoDup (JsMap.keys taskScores) ->
  NoDup (JsMap.keys (distribute tfidf wordEntry taskScores)).
Proof.
  unfold distribute, JsMap.entries. generalize (tasks wordEntry) as l.
  intros l; revert taskScores; induction l as [|[t c] l IH];
    intros taskScores H; simpl; [assumption|].
  apply IH. now apply NoDup_keys_set.
Qed.

Lemma tf_nonneg (freq total : nat) : (0 <= INR freq / INR total)%R.
Proof.
  unfold Rdiv. apply Rmult_le_pos; [apply pos_INR|].
  destruct total as [|n].
  - simpl. rewrite Rinv_0. lra.
  - left. apply Rinv_0_lt_compat, lt_0_INR. lia.
Qed.

Lemma score_word_nonneg (model : Model) (wordFreq : JsMap.t nat) (total : nat)
  (taskScores : JsMap.t R) (w : jsstring) :
  weights_ok model ->
  Forall (fun '(_, v) => (0 <= v)%R) taskScores ->
  Forall (fun '(_, v) => (0 <= v)%R)
    (score_word model wordFreq total taskScores w).
Proof.
  intros Hm H. unfold score_word.
  destruct (JsMap.get w (word_entries model)) as [e|] eqn:E; [|assumption].
  apply distribute_nonneg; [|assumption].
  apply Rmult_le_pos; [apply tf_nonneg | apply (Hm w e E)].
Qed.

Lemma score_word_NoDup (model : Model) (wordFreq : JsMap.t nat) (total : nat)
  (taskScores : JsMap.t R) (w : jsstring) :
  NoDup (JsMap.keys taskScores) ->
  NoDup (JsMap.keys (score_word model wordFreq total taskScores w)).
Proof.
  intros H. unfold score_word.
  destruct (JsMap.get w (word_entries model)); [|assumption].
  now apply distribute_NoDup.
Qed.

(** An unknown word adds nothing to any score. *)
Lemma score_word_unknown (model : Model) (wordFreq : JsMap.t nat) (total : nat)
  (taskScores : JsMap.t R) (w : jsstring) :
  JsMap.get w (word_entries model) = None ->
  score_word model wordFreq total taskScores w = taskScores.
Proof. unfold score_word. now intros ->. Qed.

Lemma taskScores_of_NoDup (model : Model) (words : list jsstring) :
  NoDup (JsMap.keys (taskScores_of model words)).
Proof.
  unfold taskScores_of.
  generalize (JsMap.keys (wordFreq_of words)) as l.
  generalize (wordFreq_of words) as wordFreq.
  intros wordFreq l.
  assert (H : NoDup (JsMap.keys (@JsMap.empty R))) by constructor.
  revert H. generalize (@JsMap.empty R) as acc.
  induction l as [|w l IH]; intros acc H; simpl; [assumption|].
  apply IH. now apply score_word_NoDup.
Qed.

Lemma taskScores_of_nonneg (model : Model) (words : list jsstring) :
  weights_ok model ->
  Forall (fun '(_, v) => (0 <= v)%R) (taskScores_of model words).
Proof.
  intros Hm. unfold taskScores_of.
  generalize (JsMap.keys (wordFreq_of words)) as l.
  generalize (wordFreq_of words) as wordFreq.
  intros wordFreq l.
  assert (H : Forall (fun '(_, v) => (0 <= v)%R) (@JsMap.empty R))
    by constructor.
  revert H. generalize (@JsMap.empty R) as acc.
  induction l as [|w l IH]; intros acc H; simpl; [assumption|].
  apply IH. now apply score_word_nonneg.
Qed.

(** The keys of [wordFreq] are words of the remark, and the unchecked
    read [wordFreq.get(word)!] of a key is defined. *)
Lemma wordFreq_keys (words : list jsstring) (w : jsstring) :
  In w (JsMap.keys (wordFreq_of words)) -> In w words.
Proof.
  unfold wordFreq_of.
  assert (H : forall acc : JsMap.t nat,
             In w (JsMap.keys
                     (fold_left
                        (fun wordFreq w =>
                           JsMap.set w (or_zero (JsMap.get w wordFreq) + 1)
                             wordFreq) words acc)) ->
             In w (JsMap.keys acc) \/ In w words).
  { induction words as [|x words IH]; intros acc Hin; simpl in *; [now left|].
    apply IH in Hin as [Hin|Hin]; [|now right; right].
    rewrite keys_set in Hin. destruct (JsMap.get x acc); [now left|].
    apply in_app_or in Hin as [Hin|[Hin|[]]]; [now left | now right; left]. }
  intros Hin. apply H in Hin as [[]|Hin]. exact Hin.
Qed.

Lemma wordFreq_get_defined (wordFreq : JsMap.t nat) (w : jsstring) :
  In w (JsMap.keys wordFreq) -> exists freq, JsMap.get w wordFreq = Some freq.
Proof.
  intros H. apply get_In_keys in H.
  destruct (JsMap.get w wordFreq) as [freq|]; [eauto | congruence].
Qed.

Lemma taskScores_of_unknown (model : Model) (words : list jsstring) :
  (forall w, In w words -> JsMap.get w (word_entries model) = None) ->
  taskScores_of model words = JsMap.empty.
Proof.
  intros Hun. unfold taskScores_of.
  assert (H : forall w, In w (JsMap.keys (wordFreq_of words)) ->
                        JsMap.get w (word_entries model) = None).
  { intros w Hw. apply Hun. now apply wordFreq_keys. }
  revert H. generalize (JsMap.keys (wordFreq_of words)) as l.
  generalize (wordFreq_of words) as wordFreq. intros wordFreq l.
  generalize (@JsMap.empty R) as acc.
  induction l as [|w l IH]; intros acc H; simpl; [reflexivity|].
  rewrite score_word_unknown by (apply H; now left).
  apply IH. intros w' Hw'. apply H. now right.
Qed.

(** ** Normalization *)

Lemma normalize_positive (taskScores : JsMap.t R) :
  NoDup (JsMap.keys taskScores) ->
  (0 < total_of taskScores)%R ->
  normalize taskScores
  = map (fun '(k, v) => (k, (v / total_of taskScores)%R)) taskScores.
Proof.
  intros Hnd Hpos. unfold normalize.
  destruct (Rlt_dec 0 (total_of taskScores)); [|contradiction].
  apply (fold_set_copy (fun v => (v / total_of taskScores)%R) taskScores []).
  exact Hnd.
Qed.

Lemma normalize_not_positive (taskScores : JsMap.t R) :
  ~ (0 < total_of taskScores)%R -> normalize taskScores = JsMap.empty.
Proof.
  intros H. unfold normalize.
  now destruct (Rlt_dec 0 (total_of taskScores)).
Qed.

Lemma normalize_empty : normalize JsMap.empty = JsMap.empty.
Proof.
  apply normalize_not_positive. unfold total_of. simpl. lra.
Qed.

Lemma normalize_nonempty (taskScores : JsMap.t R) :
  normalize taskScores <> JsMap.empty -> (0 < total_of taskScores)%R.
Proof.
  intros H. destruct (Rlt_dec 0 (total_of taskScores)) as [Hpos|Hneg];
    [assumption|].
  exfalso. apply H. now apply normalize_not_positive.
Qed.

Lemma normalize_sum (taskScores : JsMap.t R) :
  NoDup (JsMap.keys taskScores) ->
  (0 < total_of taskScores)%R ->
  sum_of_probabilities (normalize taskScores) = 1%R.
Proof.
  intros Hnd Hpos. rewrite (@normalize_positive taskScores Hnd Hpos), sum_of_scaled.
  rewrite <- total_of_sum. apply Rdiv_diag. lra.
Qed.

(** The loop of the second normalization visits no key. *)
Lemma renormalize_id (taskProbabilities : JsMap.t R) :
  renormalize taskProbabilities = taskProbabilities.
Proof.
  unfold renormalize.
  now destruct (Rlt_dec 0 (total_of taskProbabilities)).
Qed.

(** Dividing every probability of a normalized map by their sum again
    changes nothing. *)
Lemma renormalize_spec_normalize (taskScores : JsMap.t R) :
  NoDup (JsMap.keys taskScores) ->
  renormalize_spec (normalize taskScores) = normalize taskScores.
Proof.
  intros Hnd. unfold renormalize_spec.
  destruct (Rlt_dec 0 (total_of (normalize taskScores))) as [Hpos|];
    [|reflexivity].
  assert (Hscores : (0 < total_of taskScores)%R).
  { apply normalize_nonempty. intros E. rewrite E in Hpos.
    unfold total_of in Hpos. simpl in Hpos. lra. }
  rewrite total_of_sum, (@normalize_sum taskScores Hnd Hscores).
  rewrite <- (map_id (normalize taskScores)) at 2.
  apply map_ext. intros [k v]. now rewrite Rdiv_1_r.
Qed.

Lemma taskScores_of_nil (model : Model) : taskScores_of model [] = JsMap.empty.
Proof. reflexivity. Qed.

(** The distribution of a remark is the first normalization of its
    scores, also when the row is skipped for want of words. *)
Lemma infer_normalize (model : Model) (remark : jsstring) :
  infer model remark = normalize (taskScores_of model (extract_words remark)).
Proof.
  unfold infer, infer_row. simpl.
  destruct (extract_words remark) as [|w words] eqn:E; simpl.
  - now rewrite taskScores_of_nil, normalize_empty.
  - unfold taskProbabilities_of. apply renormalize_id.
Qed.

Lemma ln_nonneg (x : R) : (1 <= x)%R -> (0 <= ln x)%R.
Proof.
  intros [H| <-].
  - left. rewrite <- ln_1. apply ln_increasing; lra.
  - rewrite ln_1. lra.
Qed.

Lemma trained_weights_ok (rows : list Row) (counts : Model) :
  counts_ok rows counts -> weights_ok (idf_pass counts).
Proof.
  intros (Htotal & _ & Hslots) w e He.
  apply trained_get in He as (e0 & He0 & ->).
  specialize (Hslots w). rewrite He0 in Hslots.
  destruct Hslots as (_ & Hdf & _ & Hone). simpl.
  apply ln_nonneg.
  pose proof (remarks_containing_le_labeled w rows) as Hle.
  assert (Hpos : (0 < INR (document_frequency e0))%R)
    by (apply lt_0_INR; lia).
  assert (Hbound : (INR (document_frequency e0) <= INR (total_remarks counts))%R)
    by (apply le_INR; lia).
  apply (Rmult_le_reg_r (INR (document_frequency e0))); [assumption|].
  unfold Rdiv. rewrite Rmult_assoc, Rinv_l by lra. lra.
Qed.

Lemma normalize_nonneg (taskScores : JsMap.t R) :
  NoDup (JsMap.keys taskScores) ->
  Forall (fun '(_, v) => (0 <= v)%R) taskScores ->
  Forall (fun '(_, p) => (0 <= p)%R) (normalize taskScores).
Proof.
  intros Hnd H.
  destruct (Rlt_dec 0 (total_of taskScores)) as [Hpos|Hneg].
  - rewrite (@normalize_positive taskScores Hnd Hpos). apply Forall_forall.
    intros [k p] Hin. apply in_map_iff in Hin as ([k0 v] & E & Hin).
    injection E as <- <-. rewrite Forall_forall in H. specialize (H _ Hin).
    simpl in H. unfold Rdiv. apply Rle_mult_inv_pos; assumption.
  - rewrite (@normalize_not_positive taskScores Hneg). constructor.
Qed.

(** C3: for a trained model and any remark, a distribution that is not
    empty has probabilities that are not negative and sum to one, in
    exact arithmetic. *)
Theorem probabilities_sum_to_one (rows : list Row) (model : Model)
  (remark : jsstring) :
  train rows = Ok model ->
  infer model remark <> JsMap.empty ->
  Forall (fun '(_, p) => (0 <= p)%R) (infer model remark)
  /\ sum_of_probabilities (infer model remark) = 1%R.
Proof.
  intros Htrain. rewrite infer_normalize. intros Hne.
  destruct (train_spec rows) as (counts & _ & Hrun & Hok).
  rewrite Hrun in Htrain. injection Htrain as <-.
  pose proof (taskScores_of_NoDup (idf_pass counts) (extract_words remark))
    as Hnd.
  split.
  - apply normalize_nonneg; [assumption|].
    apply taskScores_of_nonneg. now apply (@trained_weights_ok rows counts).
  - apply normalize_sum; [assumption|]. now apply normalize_nonempty.
Qed.

(** C5: inference is a total function of the model and the remark, with
    no access that could raise.  A remark without tokens, a remark whose
    tokens are all unknown to the model, and scores whose sum is zero
    give the empty distribution, and an unknown word leaves the scores
    as they are. *)
Theorem infer_degrades_to_empty (model : Model) (remark : jsstring) :
  (extract_words remark = [] -> infer model remark = JsMap.empty)
  /\ ((forall w, In w (extract_words remark) ->
                 JsMap.get w (word_entries model) = None) ->
      infer model remark = JsMap.empty)
  /\ (total_of (taskScores_of model (extract_words remark)) = 0%R ->
      infer model remark = JsMap.empty)
  /\ (forall wordFreq totalWordsInRemark taskScores w,
        JsMap.get w (word_entries model) = None ->
        score_word model wordFreq totalWordsInRemark taskScores w = taskScores).
Proof.
  rewrite infer_normalize. repeat split.
  - intros ->. now rewrite taskScores_of_nil, normalize_empty.
  - intros H. rewrite (@taskScores_of_unknown model _ H). apply normalize_empty.
  - intros H. apply normalize_not_positive. rewrite H. lra.
  - intros. now apply score_word_unknown.
Qed.

(** C6: for every model and remark the distribution after the second
    normalization is the one the first normalization produced.  The loop
    of the second pass, a [for ... in] over the map, visits nothing; and
    dividing every probability by the sum again, as the specification
    words the pass, changes no probability either. *)
Theorem second_normalization_no_effect (model : Model) (remark : jsstring) :
  infer model remark = normalize (taskScores_of model (extract_words remark))
  /\ renormalize (normalize (taskScores_of model (extract_words remark)))
     = normalize (taskScores_of model (extract_words remark))
  /\ renormalize_spec (normalize (taskScores_of model (extract_words remark)))
     = normalize (taskScores_of model (extract_words remark)).
Proof.
  split; [apply infer_normalize|].
  split; [apply renormalize_id|].
  apply renormalize_spec_normalize, taskScores_of_NoDup.
Qed.

(** ** The scenario *)

Lemma scenario_train_counts : train_counts scenario_rows = Ok scenario_counts.
Proof. vm_compute. reflexivity. Qed.

Lemma scenario_train : train scenario_rows = Ok (idf_pass scenario_counts).
Proof. unfold train. now rewrite scenario_train_counts. Qed.

Lemma scenario_extract_words : extract_words scenario_remark = scenario_words.
Proof. vm_compute. reflexivity. Qed.

Lemma ln_2_1_pos : (0 < ln (INR 2 / INR 1))%R.
Proof.
  pose proof (ln_increasing 1 (INR 2 / INR 1)) as H. rewrite ln_1 in H.
  apply H; simpl; lra.
Qed.

(** Seven of the eight tokens are known, each from the one remark of
    [animal-ai], so that task collects seven equal shares. *)
Lemma scenario_taskScores :
  exists score,
    (0 < score)%R
    /\ taskScores_of (idf_pass scenario_counts) scenario_words
       = [(animal_ai, score)].
Proof.
  unfold taskScores_of.
  set (wordFreq := wordFreq_of scenario_words). vm_compute in wordFreq.
  subst wordFreq.
  set (n := List.length scenario_words). vm_compute in n. subst n.
  unfold JsMap.keys. simpl map. unfold idf_pass, scenario_counts.
  cbn -[INR Rplus Rmult Rdiv ln].
  eexists. split; [|reflexivity].
  pose proof ln_2_1_pos as H. simpl INR.
  assert (Hshare : (0 < 1 / (1 + 1 + 1 + 1 + 1 + 1 + 1 + 1)
                        * ln (INR 2 / INR 1) * 1)%R).
  { apply Rmult_lt_0_compat; [|lra].
    apply Rmult_lt_0_compat; [lra | exact H]. }
  simpl INR in Hshare. lra.
Qed.

Lemma normalize_single (task : jsstring) (score : R) :
  (0 < score)%R -> normalize [(task, score)] = [(task, 1%R)].
Proof.
  intros H.
  assert (Htotal : total_of [(task, score)] = score)
    by (unfold total_of; simpl; lra).
  rewrite normalize_positive.
  - simpl. rewrite Htotal. do 2 f_equal. apply Rdiv_diag. lra.
  - repeat constructor. simpl. tauto.
  - rewrite Htotal. exact H.
Qed.

Lemma scenario_infer :
  infer (idf_pass scenario_counts) scenario_remark = [(animal_ai, 1%R)].
Proof.
  rewrite infer_normalize, scenario_extract_words.
  destruct scenario_taskScores as (score & Hpos & ->).
  now apply normalize_single.
Qed.

Lemma filteredTasks_single (task : jsstring) :
  sortedTasks [(task, 1%R)] = [(task, 1%R)]
  /\ filteredTasks [(task, 1%R)] = [(task, 1%R)].
Proof.
  split; [reflexivity|]. unfold filteredTasks, sortedTasks. simpl.
  destruct (Rle_dec (5 / 100) 1); [reflexivity | lra].
Qed.

(** C9: trained on the two rows of the scenario, the inference on the
    remark of the scenario gives [animal-ai] the probability one and no
    other task any probability, so [animal-ai] is the first and only
    candidate of the ranking. *)
Theorem scenario_ranks_animal_ai :
  exists model,
    train scenario_rows = Ok model
    /\ infer model scenario_remark = [(animal_ai, 1%R)]
    /\ sortedTasks (infer model scenario_remark) = [(animal_ai, 1%R)]
    /\ filteredTasks (infer model scenario_remark) = [(animal_ai, 1%R)].
Proof.
  exists (idf_pass scenario_counts). split; [apply scenario_train|].
  rewrite scenario_infer. split; [reflexivity|]. apply filteredTasks_single.
Qed.

Lemma probabilities_sum_to_one_witness :
  train scenario_rows = Ok (idf_pass scenario_counts)
  /\ infer (idf_pass scenario_counts) scenario_remark <> JsMap.empty
  /\ Forall (fun '(_, p) => (0 <= p)%R)
       (infer (idf_pass scenario_counts) scenario_remark)
  /\ sum_of_probabilities (infer (idf_pass scenario_counts) scenario_remark)
     = 1%R.
Proof.
  assert (Hne : infer (idf_pass scenario_counts) scenario_remark <> JsMap.empty)
    by (rewrite scenario_infer; discriminate).
  split; [apply scenario_train|]. split; [exact Hne|].
  apply (@probabilities_sum_to_one scenario_rows (idf_pass scenario_counts)
           scenario_remark scenario_train Hne).
Defined.

Lemma scenario_colab_unknown (w : jsstring) :
  In w (extract_words (JsString.lit "colab")) ->
  JsMap.get w (word_entries (idf_pass scenario_counts)) = None.
Proof.
  intros [<-|[]]. rewrite idf_pass_get. reflexivity.
Qed.

Lemma infer_degrades_to_empty_witness :
  infer (idf_pass scenario_counts) (JsString.lit "the of on") = JsMap.empty
  /\ infer (idf_pass scenario_counts) (JsString.lit "colab") = JsMap.empty
  /\ infer (idf_pass scenario_counts) (JsString.lit "colab") = JsMap.empty
  /\ score_word (idf_pass scenario_counts) JsMap.empty 1 JsMap.empty
       (JsString.lit "colab")
     = JsMap.empty.
Proof.
  destruct (infer_degrades_to_empty (idf_pass scenario_counts)
              (JsString.lit "the of on")) as (Hnone & _).
  destruct (infer_degrades_to_empty (idf_pass scenario_counts)
              (JsString.lit "colab")) as (_ & Hunknown & Hzero & Hskip).
  split; [|split; [|split]].
  - apply Hnone. vm_compute. reflexivity.
  - apply Hunknown. exact scenario_colab_unknown.
  - apply Hzero.
    rewrite (@taskScores_of_unknown (idf_pass scenario_counts) _
               scenario_colab_unknown).
    reflexivity.
  - apply Hskip. apply scenario_colab_unknown. left. reflexivity.
Defined.

(** * Further properties of the script *)

(** ** The tokens the tokenizer returns *)

Lemma ws_split_pieces (s : jsstring) (pieces : list jsstring) :
  ws_split s pieces ->
  Forall (Forall (fun c => JsString.is_white_space c = false)) pieces.
Proof.
  induction 1; constructor; auto.
Qed.

Lemma split_ws_from_no_space (s piece : jsstring) :
  Forall (fun c => JsString.is_white_space c = false) s ->
  JsString.split_ws_from false piece s = [rev piece ++ s].
Proof.
  intros H. revert piece. induction H as [|c s Hc H IH]; intros piece; simpl.
  - now rewrite app_nil_r.
  - rewrite Hc, IH. simpl. now rewrite <- app_assoc.
Qed.

Lemma strip_symbols_clean (w : jsstring) :
  Forall (fun c => is_symbol c = false) (strip_symbols w).
Proof.
  apply Forall_forall. intros c Hc. apply filter_In in Hc as [_ Hc].
  now destruct (is_symbol c).
Qed.

Lemma strip_symbols_id (w : jsstring) :
  Forall (fun c => is_symbol c = false) w -> strip_symbols w = w.
Proof.
  induction 1 as [|c w Hc H IH]; [reflexivity|].
  unfold strip_symbols in *. simpl. now rewrite Hc, IH.
Qed.

Lemma strip_symbols_no_space (w : jsstring) :
  Forall (fun c => JsString.is_white_space c = false) w ->
  Forall (fun c => JsString.is_white_space c = false) (strip_symbols w).
Proof.
  intros H. apply Forall_forall. intros c Hc. apply filter_In in Hc as [Hc _].
  rewrite Forall_forall in H. now apply H.
Qed.

(** What holds of every token. *)
Lemma extract_words_token (remark w : jsstring) :
  In w (extract_words remark) ->
  w <> []
  /\ Forall (fun c => JsString.is_white_space c = false) w
  /\ Forall (fun c => is_symbol c = false) w
  /\ JsString.includes skip_words w = false.
Proof.
  intros Hin. split; [exact (@extract_words_nonempty remark w Hin)|].
  rewrite extract_words_tokenize in Hin. unfold tokenize_spec in Hin.
  apply filter_In in Hin as [Hin Hstop].
  apply filter_In in Hin as [Hin _].
  apply in_map_iff in Hin as (piece & <- & Hpiece).
  pose proof (ws_split_pieces (split_ws_spec remark)) as Hclean.
  rewrite Forall_forall in Hclean.
  split; [apply strip_symbols_no_space, Hclean, Hpiece|].
  split; [apply strip_symbols_clean|].
  rewrite skip_words_stop_words. now destruct (is_stop_word _).
Qed.

Lemma extract_words_of_token (w : jsstring) :
  w <> [] ->
  Forall (fun c => JsString.is_white_space c = false) w ->
  Forall (fun c => is_symbol c = false) w ->
  JsString.includes skip_words w = false ->
  extract_words w = [w].
Proof.
  intros Hne Hspace Hsym Hstop.
  rewrite extract_words_tokenize. unfold tokenize_spec, JsString.split_ws.
  rewrite (split_ws_from_no_space [] Hspace). simpl.
  rewrite (strip_symbols_id Hsym).
  destruct w as [|c w]; [congruence|]. simpl.
  rewrite <- skip_words_stop_words, Hstop. reflexivity.
Qed.

(** X1: a token is never empty, holds no white space and none of the
    deleted symbols, and is not a stop word. *)
Theorem extract_words_tokens_clean (remark w : jsstring) :
  In w (extract_words remark) ->
  w <> []
  /\ Forall (fun c => JsString.is_white_space c = false) w
  /\ Forall (fun c => In c symbols -> False) w
  /\ (In w skip_words -> False).
Proof.
  intros Hin.
  destruct (@extract_words_token remark w Hin) as (Hne & Hspace & Hsym & Hstop).
  repeat split; try assumption.
  - apply Forall_forall. intros c Hc Hs. rewrite Forall_forall in Hsym.
    specialize (Hsym c Hc). unfold is_symbol in Hsym.
    assert (Hex : existsb (N.eqb c) [40; 41; 45; 46; 44; 63]%N = true).
    { apply existsb_exists. exists c. split; [exact Hs | apply N.eqb_refl]. }
    congruence.
  - intros Hs. apply includes_In in Hs. congruence.
Qed.

Lemma extract_words_tokens_clean_witness :
  JsString.lit "box" <> []
  /\ Forall (fun c => JsString.is_white_space c = false) (JsString.lit "box")
  /\ Forall (fun c => In c symbols -> False) (JsString.lit "box")
  /\ (In (JsString.lit "box") skip_words -> False).
Proof.
  apply (@extract_words_tokens_clean (JsString.lit "on (box), model.")
           (JsString.lit "box")).
  vm_compute. left. reflexivity.
Defined.

(** X2: the tokenizer leaves its own tokens alone: tokenizing a token of
    any remark gives back that one token. *)
Theorem extract_words_fixes_tokens (remark w : jsstring) :
  In w (extract_words remark) -> extract_words w = [w].
Proof.
  intros Hin.
  destruct (@extract_words_token remark w Hin) as (Hne & Hspace & Hsym & Hstop).
  now apply extract_words_of_token.
Qed.

Lemma extract_words_fixes_tokens_witness :
  extract_words (JsString.lit "redo") = [JsString.lit "redo"].
Proof.
  apply (@extract_words_fixes_tokens (JsString.lit "to (re-do), it?")
           (JsString.lit "redo")).
  vm_compute. left. reflexivity.
Defined.

(** ** Tokenizing text joined by white space *)

Lemma nonempty_pieces_run (b : jsstring) :
  filter (fun t => negb (JsString.eqb t [])) (JsString.split_ws_from true [] b)
  = filter (fun t => negb (JsString.eqb t [])) (JsString.split_ws_from false [] b).
Proof.
  destruct b as [|x b]; [reflexivity|]. simpl.
  now destruct (JsString.is_white_space x).
Qed.

Lemma nonempty_pieces_app (c : JsString.code_unit) (b : jsstring) :
  JsString.is_white_space c = true ->
  forall (a : jsstring) (in_run : bool) (piece : jsstring),
    (in_run = true -> piece = []) ->
    filter (fun t => negb (JsString.eqb t []))
      (JsString.split_ws_from in_run piece (a ++ c :: b))
    = filter (fun t => negb (JsString.eqb t []))
        (JsString.split_ws_from in_run piece a)
      ++ filter (fun t => negb (JsString.eqb t []))
           (JsString.split_ws_from false [] b).
Proof.
  intros Hc. induction a as [|x a IH]; intros in_run piece Hrun; simpl.
  - rewrite Hc. destruct in_run.
    + rewrite (Hrun eq_refl). simpl. apply nonempty_pieces_run.
    + simpl. rewrite nonempty_pieces_run.
      now destruct (negb (JsString.eqb (rev piece) [])).
  - destruct (JsString.is_white_space x).
    + destruct in_run.
      * now apply IH.
      * simpl. rewrite (IH true []) by reflexivity.
        now destruct (negb (JsString.eqb (rev piece) [])).
    + apply IH. discriminate.
Qed.

Lemma tokenize_spec_app (l1 l2 : list jsstring) :
  tokenize_spec (l1 ++ l2) = tokenize_spec l1 ++ tokenize_spec l2.
Proof. unfold tokenize_spec. now rewrite map_app, !filter_app. Qed.

Lemma tokenize_spec_nonempty (pieces : list jsstring) :
  tokenize_spec (filter (fun t => negb (JsString.eqb t [])) pieces)
  = tokenize_spec pieces.
Proof.
  induction pieces as [|piece pieces IH]; [reflexivity|].
  change (piece :: pieces) with ([piece] ++ pieces).
  rewrite filter_app, (tokenize_spec_app [piece] pieces).
  rewrite (tokenize_spec_app (filter _ [piece]) (filter _ pieces)).
  f_equal; [now destruct piece | exact IH].
Qed.

Lemma extract_words_app (c : JsString.code_unit) (a b : jsstring) :
  JsString.is_white_space c = true ->
  extract_words (a ++ c :: b) = extract_words a ++ extract_words b.
Proof.
  intros Hc. rewrite !extract_words_tokenize.
  rewrite <- (tokenize_spec_nonempty (JsString.split_ws (a ++ c :: b))).
  unfold JsString.split_ws.
  rewrite (@nonempty_pieces_app c b Hc a false [])
    by discriminate.
  rewrite tokenize_spec_app, !tokenize_spec_nonempty. reflexivity.
Qed.

(** X3: the tokens of two texts joined by a white-space unit, a newline
    for one, are the tokens of the first followed by the tokens of the
    second. *)
Theorem extract_words_joined (c : JsString.code_unit) (a b : jsstring) :
  JsString.is_white_space c = true ->
  extract_words (a ++ c :: b) = extract_words a ++ extract_words b.
Proof. apply extract_words_app. Qed.

Lemma extract_words_joined_witness :
  extract_words (JsString.lit "team: demo " ++ 10%N :: JsString.lit " - pose")
  = extract_words (JsString.lit "team: demo ")
    ++ extract_words (JsString.lit " - pose").
Proof.
  apply (@extract_words_joined 10%N (JsString.lit "team: demo ")
           (JsString.lit " - pose")).
  reflexivity.
Defined.

(** ** Recounts of the other counters *)

Lemma set_values_sum (m : JsMap.t nat) (k : jsstring) (v : nat) :
  list_sum (JsMap.values (JsMap.set k v m)) + or_zero (JsMap.get k m)
  = list_sum (JsMap.values m) + v.
Proof.
  unfold JsMap.values. induction m as [|[k0 v0] m IH]; simpl; [lia|].
  destruct (JsString.eqb k k0); simpl; lia.
Qed.

Lemma set_Forall_values {V : Type} (P : V -> Prop) (m : JsMap.t V)
  (k : jsstring) (v : V) :
  Forall (fun '(_, x) => P x) m ->
  P v ->
  Forall (fun '(_, x) => P x) (JsMap.set k v m).
Proof.
  intros H Hv. induction m as [|[k0 v0] m IH]; simpl.
  - constructor; [exact Hv | constructor].
  - inversion H; subst. destruct (JsString.eqb k k0); constructor; auto.
Qed.

Lemma count_occurrence_consistent (task : jsstring) (e : Word) :
  tasks_consistent e -> tasks_consistent (count_occurrence task e).
Proof.
  intros (Hnd & Hsum & Hpos). repeat split; simpl.
  - now apply NoDup_keys_set.
  - pose proof (set_values_sum (tasks e) task
                  (or_zero (JsMap.get task (tasks e)) + 1)).
    lia.
  - apply (set_Forall_values (fun count => 1 <= count)); [assumption | lia].
Qed.

Lemma count_occurrence_iter_consistent (task : jsstring) (n : nat) (e : Word) :
  tasks_consistent e ->
  tasks_consistent (Nat.iter n (count_occurrence task) e).
Proof.
  intros H. induction n as [|n IH]; simpl; [assumption|].
  now apply count_occurrence_consistent.
Qed.

Lemma count_occurrence_iter_tasks (task : jsstring) (n : nat) (e : Word)
  (t : jsstring) :
  or_zero (JsMap.get t (tasks (Nat.iter n (count_occurrence task) e)))
  = or_zero (JsMap.get t (tasks e)) + (if JsString.eqb t task then n else 0).
Proof.
  induction n as [|n IH]; simpl.
  - destruct (JsString.eqb t task); lia.
  - rewrite get_set. destruct (JsString.eqb t task) eqn:E; simpl.
    + apply jsstring_eqb_eq in E. subst t. lia.
    + exact IH.
Qed.

Lemma task_occurrences_snoc (w task : jsstring) (rows : list Row) (row : Row) :
  task_occurrences w task (rows ++ [row])
  = task_occurrences w task rows
    + (if is_labeled row && JsString.eqb (or_empty (Task row)) task
       then occurrences w (remark_tokens row) else 0).
Proof.
  unfold task_occurrences.
  rewrite labeled_rows_snoc, filter_app, map_app, list_sum_app. f_equal.
  destruct (is_labeled row); simpl; [|reflexivity].
  destruct (JsString.eqb (or_empty (Task row)) task); simpl; lia.
Qed.

Lemma task_occurrences_le_total (w task : jsstring) (rows : list Row) :
  task_occurrences w task rows <= total_occurrences w rows.
Proof.
  unfold task_occurrences, total_occurrences.
  induction (labeled_rows rows) as [|row l IH]; simpl; [lia|].
  destruct (JsString.eqb (or_empty (Task row)) task); simpl; lia.
Qed.

(** An invariant of the loop body that holds at the start holds after
    the training loop, which does not raise. *)
Lemma train_counts_invariant (I : list Row -> Model -> Prop) :
  I [] initial_model ->
  (forall done model row model',
      counts_ok done model ->
      I done model ->
      train_row model row = Ok model' ->
      I (done ++ [row]) model') ->
  forall rows,
    exists model,
      train_counts rows = Ok model /\ counts_ok rows model /\ I rows model.
Proof.
  intros Hinit Hstep rows.
  assert (H : forall rest done model,
             counts_ok done model -> I done model ->
             exists model',
               for_of train_row rest model = Ok model'
               /\ counts_ok (done ++ rest) model'
               /\ I (done ++ rest) model').
  { induction rest as [|row rest IH]; intros done model Hok HI; simpl.
    - exists model. now rewrite app_nil_r.
    - destruct (@train_row_counts_ok done model row Hok) as (model1 & Hrow & Hok1).
      pose proof (Hstep _ _ _ _ Hok HI Hrow) as HI1. rewrite Hrow.
      destruct (IH _ _ Hok1 HI1) as (model' & Hrun & Hok' & HI').
      exists model'. rewrite <- app_assoc in Hok', HI'. auto. }
  apply (H rows [] initial_model counts_ok_initial Hinit).
Qed.

Lemma tasks_ok_step (done : list Row) (model : Model) (row : Row)
  (model' : Model) :
  counts_ok done model ->
  tasks_ok done model ->
  train_row model row = Ok model' ->
  tasks_ok (done ++ [row]) model'.
Proof.
  intros (_ & _ & Hslots) Htasks Hrow.
  destruct (is_labeled row) eqn:L.
  - destruct (train_row_labeled model row L) as (entries' & Hrow' & _ & Hget).
    rewrite Hrow' in Hrow. injection Hrow as <-. simpl.
    intros w e He. simpl in He. rewrite Hget in He.
    destruct (JsString.includes (remark_tokens row) w) eqn:Hinc.
    + injection He as <-.
      assert (Hold : tasks_consistent
                       (entry_or_new w (JsMap.get w (word_entries model)))
                     /\ forall task,
                          or_zero (JsMap.get task
                                     (tasks (entry_or_new w
                                               (JsMap.get w (word_entries model)))))
                          = task_occurrences w task done).
      { specialize (Hslots w).
        destruct (JsMap.get w (word_entries model)) as [e0|] eqn:E0; simpl.
        - exact (Htasks w e0 E0).
        - split; [repeat split; constructor|].
          intros task. simpl. destruct Hslots as (_ & Hzero).
          pose proof (task_occurrences_le_total w task done). lia. }
      destruct Hold as (Hcons & Hcount). split.
      * apply count_occurrence_iter_consistent. exact Hcons.
      * intros task. rewrite count_occurrence_iter_tasks, task_occurrences_snoc, L.
        simpl. rewrite <- Hcount. rewrite (jsstring_eqb_sym task). reflexivity.
    + destruct (Htasks w e He) as (Hcons & Hcount). split; [exact Hcons|].
      intros task. rewrite task_occurrences_snoc, Hcount.
      rewrite occurrences_includes in Hinc. apply Nat.ltb_ge in Hinc.
      assert (occurrences w (remark_tokens row) = 0) as -> by lia.
      destruct (is_labeled row && JsString.eqb (or_empty (Task row)) task); lia.
  - rewrite (train_row_unlabeled model row L) in Hrow. injection Hrow as <-.
    intros w e He. destruct (Htasks w e He) as (Hcons & Hcount).
    split; [exact Hcons|]. intros task.
    rewrite task_occurrences_snoc, L, Hcount. simpl. lia.
Qed.

Lemma train_counts_tasks_ok (rows : list Row) :
  exists counts,
    train_counts rows = Ok counts
    /\ train rows = Ok (idf_pass counts)
    /\ counts_ok rows counts
    /\ tasks_ok rows counts.
Proof.
  destruct (train_counts_invariant tasks_ok) with (rows := rows)
    as (counts & Hrun & Hok & Htasks).
  - intros w e He. discriminate He.
  - apply tasks_ok_step.
  - exists counts. unfold train. rewrite Hrun. auto.
Qed.

(** X4: after training, a stored entry carries its own word, and its
    [total_occurrence] is the number of times the word occurs in the
    tokens of the labeled rows. *)
Theorem total_occurrence_recount (rows : list Row) :
  exists model,
    train rows = Ok model
    /\ forall w e,
         JsMap.get w (word_entries model) = Some e ->
         word e = w /\ total_occurrence e = total_occurrences w rows.
Proof.
  destruct (train_spec rows) as (counts & _ & Hrun & _ & _ & Hslots).
  exists (idf_pass counts). split; [exact Hrun|].
  intros w e He. apply trained_get in He as (e0 & He0 & ->).
  specialize (Hslots w). rewrite He0 in Hslots.
  destruct Hslots as (Hw & _ & Htot & _). split; assumption.
Qed.

Lemma total_occurrence_recount_witness :
  exists model e,
    train [labeled_row "website" "form (form) email"] = Ok model
    /\ JsMap.get (JsString.lit "form") (word_entries model) = Some e
    /\ word e = JsString.lit "form"
    /\ total_occurrence e = 2.
Proof.
  destruct (total_occurrence_recount [labeled_row "website" "form (form) email"])
    as (model & Hrun & Hget).
  assert (He : exists e,
             JsMap.get (JsString.lit "form") (word_entries model) = Some e).
  { unfold train in Hrun.
    destruct (train_counts [labeled_row "website" "form (form) email"])
      as [counts|] eqn:Hc; [|discriminate Hrun].
    injection Hrun as <-. vm_compute in Hc. injection Hc as <-.
    rewrite idf_pass_get. simpl. eauto. }
  destruct He as [e He]. exists model, e.
  destruct (Hget _ _ He) as [Hw Htot].
  repeat split; try assumption.
Defined.

(** X5: after training, the counter an entry keeps for a task is the
    number of times the word occurs in the tokens of the rows labeled
    with that task, and a task of count zero has no counter. *)
Theorem task_counters_recount (rows : list Row) :
  exists model,
    train rows = Ok model
    /\ forall w e task,
         JsMap.get w (word_entries model) = Some e ->
         JsMap.get task (tasks e)
         = if task_occurrences w task rows =? 0 then None
           else Some (task_occurrences w task rows).
Proof.
  destruct (train_counts_tasks_ok rows) as (counts & _ & Hrun & _ & Htasks).
  exists (idf_pass counts). split; [exact Hrun|].
  intros w e task He. apply trained_get in He as (e0 & He0 & ->). simpl.
  destruct (Htasks w e0 He0) as ((_ & _ & Hpos) & Hcount).
  specialize (Hcount task).
  destruct (JsMap.get task (tasks e0)) as [count|] eqn:E; simpl in Hcount.
  - apply get_In in E. rewrite Forall_forall in Hpos.
    specialize (Hpos _ E). simpl in Hpos.
    rewrite <- Hcount. destruct (count =? 0) eqn:Z; [|reflexivity].
    apply Nat.eqb_eq in Z. lia.
  - now rewrite <- Hcount.
Qed.

Lemma task_counters_recount_witness :
  exists model e,
    train scenario_rows = Ok model
    /\ JsMap.get (JsString.lit "demo") (word_entries model) = Some e
    /\ JsMap.get animal_ai (tasks e) = Some 1
    /\ JsMap.get (JsString.lit "website") (tasks e) = None.
Proof.
  destruct (task_counters_recount scenario_rows) as (model & Hrun & Hget).
  assert (He : exists e,
             JsMap.get (JsString.lit "demo") (word_entries model) = Some e).
  { rewrite scenario_train in Hrun. injection Hrun as <-.
    rewrite idf_pass_get. simpl. eauto. }
  destruct He as [e He]. exists model, e.
  split; [exact Hrun|]. split; [exact He|].
  split; rewrite (Hget _ _ _ He); reflexivity.
Defined.

(** X6: after training, the task counters of an entry are at least one
    each and add up to its [total_occurrence]. *)
Theorem task_counters_sum (rows : list Row) :
  exists model,
    train rows = Ok model
    /\ Forall
         (fun '(_, e) =>
            list_sum (JsMap.values (tasks e)) = total_occurrence e
            /\ Forall (fun '(_, count) => 1 <= count) (JsMap.entries (tasks e)))
         (JsMap.entries (word_entries model)).
Proof.
  destruct (train_counts_tasks_ok rows)
    as (counts & _ & Hrun & (_ & Hnd & _) & Htasks).
  exists (idf_pass counts). split; [exact Hrun|].
  apply Forall_forall. intros [w e] Hin. apply In_get in Hin.
  2:{ unfold JsMap.entries, idf_pass. simpl.
      now rewrite (keys_map (set_idf_score (total_remarks counts))). }
  apply trained_get in Hin as (e0 & He0 & ->). simpl.
  destruct (Htasks w e0 He0) as ((_ & Hsum & Hpos) & _). split; assumption.
Qed.

(** ** Training does not depend on the order of the rows *)

Lemma filter_Permutation {A : Type} (f : A -> bool) (l l' : list A) :
  Permutation l l' -> Permutation (filter f l) (filter f l').
Proof.
  induction 1 as [|x l l' H IH|x y l|l l' l'' H1 IH1 H2 IH2]; simpl.
  - constructor.
  - destruct (f x); [now constructor | assumption].
  - destruct (f x), (f y); try apply Permutation_refl. apply perm_swap.
  - now apply Permutation_trans with (filter f l').
Qed.

Lemma list_sum_Permutation (l l' : list nat) :
  Permutation l l' -> list_sum l = list_sum l'.
Proof.
  induction 1; simpl; lia.
Qed.

Lemma recounts_Permutation (rows rows' : list Row) (w : jsstring) :
  Permutation rows rows' ->
  List.length (labeled_rows rows) = List.length (labeled_rows rows')
  /\ remarks_containing w rows = remarks_containing w rows'
  /\ total_occurrences w rows = total_occurrences w rows'
  /\ forall task, task_occurrences w task rows = task_occurrences w task rows'.
Proof.
  intros H.
  assert (Hl : Permutation (labeled_rows rows) (labeled_rows rows'))
    by now apply filter_Permutation.
  split; [now apply Permutation_length|].
  split; [apply Permutation_length; now apply filter_Permutation|].
  split.
  - apply list_sum_Permutation. now apply Permutation_map.
  - intros task. apply list_sum_Permutation, Permutation_map.
    now apply filter_Permutation.
Qed.

(** The slot of a word in a trained model, read off the recounts. *)
Lemma trained_slot (rows : list Row) (counts : Model) (w : jsstring) :
  counts_ok rows counts ->
  tasks_ok rows counts ->
  option_map word_statistics (JsMap.get w (word_entries (idf_pass counts)))
  = (if remarks_containing w rows =? 0 then None
     else Some (remarks_containing w rows, total_occurrences w rows,
                Some (ln (INR (List.length (labeled_rows rows))
                          / INR (remarks_containing w rows)))%R))
  /\ forall task,
       task_counter (idf_pass counts) w task
       = if (remarks_containing w rows =? 0)
            || (task_occurrences w task rows =? 0)
         then None else Some (task_occurrences w task rows).
Proof.
  intros (Htotal & _ & Hslots) Htasks. unfold task_counter.
  rewrite idf_pass_get. specialize (Hslots w).
  destruct (JsMap.get w (word_entries counts)) as [e0|] eqn:E0; simpl in *.
  - destruct Hslots as (_ & Hdf & Htot & Hpos).
    destruct (Htasks w e0 E0) as ((_ & _ & Hone) & Hcount).
    assert (Hnz : (remarks_containing w rows =? 0) = false)
      by (apply Nat.eqb_neq; lia).
    rewrite Hnz. simpl. split.
    + unfold word_statistics. simpl. now rewrite Hdf, Htot, Htotal.
    + intros task. specialize (Hcount task).
      destruct (JsMap.get task (tasks e0)) as [count|] eqn:E;
        simpl in Hcount; rewrite <- Hcount; [|reflexivity].
      apply get_In in E. rewrite Forall_forall in Hone.
      specialize (Hone _ E). simpl in Hone.
      destruct (count =? 0) eqn:Z; [|reflexivity].
      apply Nat.eqb_eq in Z. lia.
  - destruct Hslots as (-> & _). split; reflexivity.
Qed.

(** X7: training on the same rows in another order gives the same
    number of remarks and, word by word, the same counters, the same IDF
    score and the same task counters. *)
Theorem train_order_independent (rows rows' : list Row) :
  Permutation rows rows' ->
  exists model model',
    train rows = Ok model
    /\ train rows' = Ok model'
    /\ total_remarks model = total_remarks model'
    /\ forall w,
         option_map word_statistics (JsMap.get w (word_entries model))
         = option_map word_statistics (JsMap.get w (word_entries model'))
         /\ forall task, task_counter model w task = task_counter model' w task.
Proof.
  intros Hperm.
  destruct (train_counts_tasks_ok rows) as (counts & _ & Hrun & Hok & Htasks).
  destruct (train_counts_tasks_ok rows')
    as (counts' & _ & Hrun' & Hok' & Htasks').
  exists (idf_pass counts), (idf_pass counts').
  split; [exact Hrun|]. split; [exact Hrun'|].
  split.
  - simpl. destruct Hok as (-> & _), Hok' as (-> & _).
    apply (recounts_Permutation [] Hperm).
  - intros w.
    destruct (@trained_slot rows counts w Hok Htasks) as (Hs & Hc).
    destruct (@trained_slot rows' counts' w Hok' Htasks') as (Hs' & Hc').
    destruct (recounts_Permutation w Hperm) as (Hn & Hr & Ht & Hk).
    split.
    + rewrite Hs, Hs', Hn, Hr, Ht. reflexivity.
    + intros task. rewrite Hc, Hc', Hr, (Hk task). reflexivity.
Qed.

Lemma train_order_independent_witness :
  exists model model',
    train scenario_rows = Ok model
    /\ train (rev scenario_rows) = Ok model'
    /\ total_remarks model = total_remarks model'
    /\ option_map word_statistics
         (JsMap.get (JsString.lit "demo") (word_entries model))
       = option_map word_statistics
           (JsMap.get (JsString.lit "demo") (word_entries model')).
Proof.
  destruct (@train_order_independent scenario_rows (rev scenario_rows))
    as (model & model' & Hrun & Hrun' & Htotal & Hw).
  - apply perm_swap.
  - exists model, model'. repeat split; try assumption.
    apply (Hw (JsString.lit "demo")).
Defined.

(** ** The IDF scores of a trained model *)

Lemma ln_le_compat (x y : R) : (0 < x)%R -> (x <= y)%R -> (ln x <= ln y)%R.
Proof.
  intros Hx [H| <-]; [|lra]. left. now apply ln_increasing.
Qed.

Lemma idf_quotient_le (n d d' : nat) :
  1 <= d -> d <= d' -> d' <= n ->
  (0 < INR n / INR d')%R /\ (INR n / INR d' <= INR n / INR d)%R.
Proof.
  intros H1 H2 H3.
  assert (Hd : (0 < INR d)%R) by (apply lt_0_INR; lia).
  assert (Hd' : (0 < INR d')%R) by (apply lt_0_INR; lia).
  assert (Hn : (0 < INR n)%R) by (apply lt_0_INR; lia).
  assert (Hle : (INR d <= INR d')%R) by (apply le_INR; lia).
  split.
  - unfold Rdiv. apply Rmult_lt_0_compat; [assumption|].
    now apply Rinv_0_lt_compat.
  - unfold Rdiv. apply Rmult_le_compat_l; [lra|].
    now apply Rinv_le_contravar.
Qed.

(** X8: in a trained model every IDF score lies between [0] and
    [ln total_remarks], and of two stored words the one in more remarks
    has the score that is not greater. *)
Theorem idf_score_bounds (rows : list Row) :
  exists model,
    train rows = Ok model
    /\ (forall w e,
          JsMap.get w (word_entries model) = Some e ->
          (0 <= idf_or_zero (idf_score e) <= ln (INR (total_remarks model)))%R)
    /\ (forall w1 e1 w2 e2,
          JsMap.get w1 (word_entries model) = Some e1 ->
          JsMap.get w2 (word_entries model) = Some e2 ->
          document_frequency e1 <= document_frequency e2 ->
          (idf_or_zero (idf_score e2) <= idf_or_zero (idf_score e1))%R).
Proof.
  destruct (train_spec rows) as (counts & _ & Hrun & Hok).
  exists (idf_pass counts). split; [exact Hrun|].
  pose proof (@trained_weights_ok rows counts Hok) as Hw.
  destruct Hok as (Htotal & _ & Hslots).
  assert (Hdf : forall w e0,
             JsMap.get w (word_entries counts) = Some e0 ->
             1 <= document_frequency e0 <= total_remarks counts).
  { intros w e0 He0. specialize (Hslots w). rewrite He0 in Hslots.
    destruct Hslots as (_ & Hdf & _ & Hpos).
    pose proof (remarks_containing_le_labeled w rows). lia. }
  split.
  - intros w e He. split; [exact (Hw w e He)|].
    apply trained_get in He as (e0 & He0 & ->). simpl.
    destruct (Hdf w e0 He0) as [H1 H2].
    destruct (@idf_quotient_le (total_remarks counts) 1 (document_frequency e0))
      as [Hpos Hle]; try lia.
    simpl INR in Hle. rewrite Rdiv_1_r in Hle.
    now apply ln_le_compat.
  - intros w1 e1 w2 e2 He1 He2 Hle.
    apply trained_get in He1 as (e01 & He01 & ->).
    apply trained_get in He2 as (e02 & He02 & ->). simpl in *.
    destruct (Hdf w1 e01 He01) as [H1 _]. destruct (Hdf w2 e02 He02) as [_ H2].
    destruct (@idf_quotient_le (total_remarks counts) (document_frequency e01)
                (document_frequency e02)) as [Hpos Hq]; try lia.
    now apply ln_le_compat.
Qed.

Lemma idf_score_bounds_witness :
  exists model e,
    train scenario_rows = Ok model
    /\ JsMap.get (JsString.lit "demo") (word_entries model) = Some e
    /\ (0 <= idf_or_zero (idf_score e) <= ln (INR (total_remarks model)))%R
    /\ (idf_or_zero (idf_score e) <= idf_or_zero (idf_score e))%R.
Proof.
  destruct (idf_score_bounds scenario_rows) as (model & Hrun & Hb & Hm).
  assert (He : exists e,
             JsMap.get (JsString.lit "demo") (word_entries model) = Some e).
  { rewrite scenario_train in Hrun. injection Hrun as <-.
    rewrite idf_pass_get. simpl. eauto. }
  destruct He as [e He]. exists model, e.
  split; [exact Hrun|]. split; [exact He|].
  split; [exact (Hb _ _ He)|].
  apply (Hm _ _ _ _ He He). apply Nat.le_refl.
Defined.

(** ** Models without a discriminating word *)

Lemma distribute_zero (wordEntry : Word) (taskScores : JsMap.t R) :
  Forall (fun '(_, v) => v = 0%R) taskScores ->
  Forall (fun '(_, v) => v = 0%R) (distribute 0 wordEntry taskScores).
Proof.
  unfold distribute, JsMap.entries. generalize (tasks wordEntry) as l.
  intros l; revert taskScores; induction l as [|[t c] l IH];
    intros taskScores H; simpl; [assumption|].
  apply IH. apply (set_Forall_values (fun v => v = 0%R)); [assumption|].
  assert (Hcur : score_or_zero (JsMap.get t taskScores) = 0%R).
  { destruct (JsMap.get t taskScores) as [v|] eqn:E; [|reflexivity].
    apply get_In in E. rewrite Forall_forall in H. exact (H _ E). }
  rewrite Hcur. lra.
Qed.

Lemma taskScores_of_zero (model : Model) (words : list jsstring) :
  (forall w e,
      JsMap.get w (word_entries model) = Some e ->
      idf_or_zero (idf_score e) = 0%R) ->
  Forall (fun '(_, v) => v = 0%R) (taskScores_of model words).
Proof.
  intros Hidf. unfold taskScores_of.
  generalize (JsMap.keys (wordFreq_of words)) as l.
  generalize (wordFreq_of words) as wordFreq. intros wordFreq l.
  assert (H : Forall (fun '(_, v) => v = 0%R) (@JsMap.empty R)) by constructor.
  revert H. generalize (@JsMap.empty R) as acc.
  induction l as [|w l IH]; intros acc H; simpl; [assumption|].
  apply IH. unfold score_word.
  destruct (JsMap.get w (word_entries model)) as [e|] eqn:E; [|assumption].
  rewrite (Hidf w e E), Rmult_0_r. now apply distribute_zero.
Qed.

Lemma total_of_zero (m : JsMap.t R) :
  Forall (fun '(_, v) => v = 0%R) m -> total_of m = 0%R.
Proof.
  intros H. rewrite total_of_sum. unfold sum_of_probabilities, JsMap.values.
  induction H as [|[k v] m Hv H IH]; simpl; [reflexivity|].
  rewrite IH, Hv. lra.
Qed.

Lemma infer_without_weight (model : Model) (remark : jsstring) :
  (forall w e,
      JsMap.get w (word_entries model) = Some e ->
      idf_or_zero (idf_score e) = 0%R) ->
  infer model remark = JsMap.empty.
Proof.
  intros H. rewrite infer_normalize. apply normalize_not_positive.
  rewrite (total_of_zero (taskScores_of_zero model (extract_words remark) H)).
  lra.
Qed.

(** X9: a model trained on rows of which at most one is labeled infers
    nothing: every word it knows is in every labeled remark, so every
    IDF score is [ln 1 = 0] and every distribution is empty. *)
Theorem single_labeled_row_infers_nothing (rows : list Row) (model : Model)
  (remark : jsstring) :
  List.length (labeled_rows rows) <= 1 ->
  train rows = Ok model ->
  infer model remark = JsMap.empty.
Proof.
  intros Hone Htrain.
  destruct (train_spec rows) as (counts & _ & Hrun & Htotal & _ & Hslots).
  rewrite Hrun in Htrain. injection Htrain as <-.
  apply infer_without_weight. intros w e He.
  apply trained_get in He as (e0 & He0 & ->). simpl.
  specialize (Hslots w). rewrite He0 in Hslots.
  destruct Hslots as (_ & Hdf & _ & Hpos).
  pose proof (remarks_containing_le_labeled w rows) as Hle.
  assert (Hd : document_frequency e0 = 1) by lia.
  assert (Hn : total_remarks counts = 1) by lia.
  rewrite Hd, Hn. simpl. rewrite Rdiv_1_r. apply ln_1.
Qed.

Lemma single_labeled_row_infers_nothing_witness :
  infer
    (idf_pass
       {| word_entries :=
            [(JsString.lit "email",
              {| word := JsString.lit "email";
                 total_occurrence := 1;
                 document_frequency := 1;
                 tasks := [(JsString.lit "website", 1)];
                 idf_score := None |})];
          total_remarks := 1 |})
    (JsString.lit "email form")
  = JsMap.empty.
Proof.
  apply (@single_labeled_row_infers_nothing [labeled_row "website" "email"]).
  - vm_compute. apply Nat.le_refl.
  - unfold train.
    assert (Hc : train_counts [labeled_row "website" "email"]
                 = Ok {| word_entries :=
                           [(JsString.lit "email",
                             {| word := JsString.lit "email";
                                total_occurrence := 1;
                                document_frequency := 1;
                                tasks := [(JsString.lit "website", 1)];
                                idf_score := None |})];
                         total_remarks := 1 |})
      by (vm_compute; reflexivity).
    rewrite Hc. reflexivity.
Defined.

(** ** The word frequencies of a remark *)

Lemma wordFreq_fold (words : list jsstring) :
  forall (acc : JsMap.t nat) (w : jsstring),
    or_zero
      (JsMap.get w
         (fold_left
            (fun wordFreq w =>
               JsMap.set w (or_zero (JsMap.get w wordFreq) + 1) wordFreq)
            words acc))
    = or_zero (JsMap.get w acc) + occurrences w words.
Proof.
  induction words as [|x words IH]; intros acc w; simpl.
  - unfold occurrences. simpl. lia.
  - rewrite IH, get_set, occurrences_cons.
    destruct (JsString.eqb w x) eqn:E; simpl; [|reflexivity].
    apply jsstring_eqb_eq in E. subst x. lia.
Qed.

Lemma wordFreq_fold_keys (words : list jsstring) :
  forall acc : JsMap.t nat,
    JsMap.keys
      (fold_left
         (fun wordFreq w =>
            JsMap.set w (or_zero (JsMap.get w wordFreq) + 1) wordFreq)
         words acc)
    = fold_left (fun s x => JsSet.add x s) words (JsMap.keys acc).
Proof.
  induction words as [|x words IH]; intros acc; simpl; [reflexivity|].
  rewrite IH, keys_set. f_equal. unfold JsSet.add.
  destruct (JsMap.get x acc) as [n|] eqn:E.
  - assert (H : JsString.includes (JsMap.keys acc) x = true).
    { apply includes_In, get_In_keys. congruence. }
    now rewrite H.
  - assert (H : JsString.includes (JsMap.keys acc) x = false).
    { destruct (JsString.includes (JsMap.keys acc) x) eqn:F; [|reflexivity].
      apply includes_In, get_In_keys in F. congruence. }
    now rewrite H.
Qed.

Lemma wordFreq_fold_sum (words : list jsstring) :
  forall acc : JsMap.t nat,
    list_sum
      (JsMap.values
         (fold_left
            (fun wordFreq w =>
               JsMap.set w (or_zero (JsMap.get w wordFreq) + 1) wordFreq)
            words acc))
    = list_sum (JsMap.values acc) + List.length words.
Proof.
  induction words as [|x words IH]; intros acc; simpl; [lia|].
  rewrite IH.
  pose proof (set_values_sum acc x (or_zero (JsMap.get x acc) + 1)). lia.
Qed.

Lemma wordFreq_keys_set (words : list jsstring) :
  JsMap.keys (wordFreq_of words) = JsSet.from_array words.
Proof. apply (wordFreq_fold_keys words JsMap.empty). Qed.

Lemma wordFreq_get (words : list jsstring) (w : jsstring) :
  JsMap.get w (wordFreq_of words)
  = if occurrences w words =? 0 then None else Some (occurrences w words).
Proof.
  pose proof (wordFreq_fold words JsMap.empty w) as Hn. simpl in Hn.
  fold (wordFreq_of words) in Hn.
  destruct (occurrences w words =? 0) eqn:Z.
  - apply get_None_keys. intros Hin. apply wordFreq_keys in Hin.
    apply includes_In in Hin. rewrite occurrences_includes in Hin.
    apply Nat.eqb_eq in Z. rewrite Z in Hin. discriminate Hin.
  - apply Nat.eqb_neq in Z.
    destruct (JsMap.get w (wordFreq_of words)) as [n|]; simpl in Hn;
      [now subst n | lia].
Qed.

(** X10: [wordFreq] maps every word of the remark to the number of its
    occurrences and has no other key; its keys are the distinct words in
    the order of their first occurrence, and its counts add up to the
    number of tokens. *)
Theorem wordFreq_counts_occurrences (words : list jsstring) (w : jsstring) :
  JsMap.get w (wordFreq_of words)
  = (if occurrences w words =? 0 then None else Some (occurrences w words))
  /\ JsMap.keys (wordFreq_of words) = JsSet.from_array words
  /\ list_sum (JsMap.values (wordFreq_of words)) = List.length words.
Proof.
  split; [apply wordFreq_get|]. split; [apply wordFreq_keys_set|].
  apply (wordFreq_fold_sum words JsMap.empty).
Qed.

(** ** The scores in closed form *)

Lemma distribute_get (x : R) (l : JsMap.t nat) :
  NoDup (JsMap.keys l) ->
  forall (taskScores : JsMap.t R) (t : jsstring),
    score_or_zero
      (JsMap.get t
         (fold_left
            (fun taskScores '(taskName, coOccurrenceCount) =>
               let weightedScore := (x * INR coOccurrenceCount)%R in
               let currentScore :=
                 score_or_zero (JsMap.get taskName taskScores) in
               JsMap.set taskName (currentScore + weightedScore)%R taskScores)
            l taskScores))
    = (score_or_zero (JsMap.get t taskScores)
       + x * INR (or_zero (JsMap.get t l)))%R.
Proof.
  induction l as [|[t' c] l IH]; intros Hnd taskScores t; simpl.
  - lra.
  - inversion Hnd as [|? ? Hnot Hnd']; subst.
    rewrite (IH Hnd'), get_set.
    destruct (JsString.eqb t t') eqn:E; simpl; [|reflexivity].
    apply jsstring_eqb_eq in E. subst t'.
    assert (Hl : JsMap.get t l = None) by now apply get_None_keys.
    rewrite Hl. simpl. lra.
Qed.

Lemma score_word_get (model : Model) (words : list jsstring)
  (taskScores : JsMap.t R) (w t : jsstring) :
  (forall w e,
      JsMap.get w (word_entries model) = Some e -> NoDup (JsMap.keys (tasks e))) ->
  score_or_zero
    (JsMap.get t
       (score_word model (wordFreq_of words) (List.length words) taskScores w))
  = (score_or_zero (JsMap.get t taskScores) + contribution model words t w)%R.
Proof.
  intros Hnd. unfold score_word, contribution.
  destruct (JsMap.get w (word_entries model)) as [e|] eqn:E; [|lra].
  unfold distribute, JsMap.entries.
  rewrite (@distribute_get _ (tasks e) (Hnd w e E)).
  pose proof (wordFreq_fold words JsMap.empty w) as Hn. simpl in Hn.
  fold (wordFreq_of words) in Hn. rewrite Hn. lra.
Qed.

Lemma taskScores_of_get (model : Model) (words : list jsstring) (t : jsstring) :
  (forall w e,
      JsMap.get w (word_entries model) = Some e -> NoDup (JsMap.keys (tasks e))) ->
  score_or_zero (JsMap.get t (taskScores_of model words))
  = raw_score model words t.
Proof.
  intros Hnd. unfold taskScores_of, raw_score.
  rewrite wordFreq_keys_set.
  assert (H : forall l acc,
             score_or_zero
               (JsMap.get t
                  (fold_left
                     (score_word model (wordFreq_of words) (List.length words))
                     l acc))
             = (score_or_zero (JsMap.get t acc)
                + fold_right Rplus 0 (map (contribution model words t) l))%R).
  { induction l as [|w l IH]; intros acc; simpl; [lra|].
    rewrite IH, (@score_word_get model words acc w t Hnd). lra. }
  rewrite H. simpl. lra.
Qed.

Lemma trained_tasks_NoDup (rows : list Row) (model : Model) :
  train rows = Ok model ->
  forall w e,
    JsMap.get w (word_entries model) = Some e -> NoDup (JsMap.keys (tasks e)).
Proof.
  intros Htrain w e He.
  destruct (train_counts_tasks_ok rows) as (counts & _ & Hrun & _ & Htasks).
  rewrite Hrun in Htrain. injection Htrain as <-.
  apply trained_get in He as (e0 & He0 & ->). simpl.
  now destruct (Htasks w e0 He0) as ((Hnd & _) & _).
Qed.

(** X11: for a trained model, the raw score a task gets for a remark is
    the sum, over the distinct tokens of the remark, of term frequency
    times IDF score times the counter of the token for the task; a task
    without a score counts as zero. *)
Theorem raw_score_closed_form (rows : list Row) (model : Model)
  (remark task : jsstring) :
  train rows = Ok model ->
  score_or_zero
    (JsMap.get task (taskScores_of model (extract_words remark)))
  = fold_right Rplus 0%R
      (map
         (fun w =>
            match JsMap.get w (word_entries model) with
            | None => 0
            | Some e =>
                INR (occurrences w (extract_words remark))
                / INR (List.length (extract_words remark))
                * idf_or_zero (idf_score e)
                * INR (or_zero (JsMap.get task (tasks e)))
            end)%R
         (JsSet.from_array (extract_words remark))).
Proof.
  intros Htrain.
  apply (@taskScores_of_get model (extract_words remark) task
           (@trained_tasks_NoDup rows model Htrain)).
Qed.

Lemma raw_score_closed_form_witness :
  score_or_zero
    (JsMap.get animal_ai
       (taskScores_of (idf_pass scenario_counts)
          (extract_words (JsString.lit "colab demo"))))
  = (0 + (INR 1 / INR 2 * ln (INR 2 / INR 1) * INR 1 + 0))%R.
Proof.
  rewrite (@raw_score_closed_form scenario_rows (idf_pass scenario_counts)
             (JsString.lit "colab demo") animal_ai scenario_train).
  reflexivity.
Defined.

(** ** The tasks a remark can be given *)

Lemma distribute_keys (x : R) (wordEntry : Word) (taskScores : JsMap.t R)
  (t : jsstring) :
  In t (JsMap.keys (distribute x wordEntry taskScores)) ->
  In t (JsMap.keys taskScores) \/ In t (JsMap.keys (tasks wordEntry)).
Proof.
  unfold distribute, JsMap.entries. generalize (tasks wordEntry) as l.
  intros l; revert taskScores; induction l as [|[t' c] l IH];
    intros taskScores Hin; simpl in *; [now left|].
  apply IH in Hin as [Hin|Hin]; [|now right; right].
  rewrite keys_set in Hin.
  destruct (JsMap.get t' taskScores); [now left|].
  apply in_app_or in Hin as [Hin|[Hin|[]]]; [now left | now right; left].
Qed.

Lemma taskScores_of_keys (model : Model) (words : list jsstring) (t : jsstring) :
  In t (JsMap.keys (taskScores_of model words)) ->
  exists w e,
    In w words
    /\ JsMap.get w (word_entries model) = Some e
    /\ In t (JsMap.keys (tasks e)).
Proof.
  unfold taskScores_of.
  assert (H : forall l acc,
             In t (JsMap.keys
                     (fold_left
                        (score_word model (wordFreq_of words)
                           (List.length words)) l acc)) ->
             In t (JsMap.keys acc)
             \/ exists w e,
                  In w l
                  /\ JsMap.get w (word_entries model) = Some e
                  /\ In t (JsMap.keys (tasks e))).
  { induction l as [|w l IH]; intros acc Hin; simpl in *; [now left|].
    apply IH in Hin as [Hin|(w' & e & Hw' & He & Ht)].
    - unfold score_word in Hin.
      destruct (JsMap.get w (word_entries model)) as [e|] eqn:E; [|now left].
      apply distribute_keys in Hin as [Hin|Hin]; [now left|].
      right. exists w, e. auto.
    - right. exists w', e. auto. }
  intros Hin. apply H in Hin as [[]|(w & e & Hw & He & Ht)].
  exists w, e. split; [now apply wordFreq_keys | auto].
Qed.

Lemma normalize_keys (taskScores : JsMap.t R) (t : jsstring) :
  NoDup (JsMap.keys taskScores) ->
  In t (JsMap.keys (normalize taskScores)) ->
  In t (JsMap.keys taskScores).
Proof.
  intros Hnd. destruct (Rlt_dec 0 (total_of taskScores)) as [Hpos|Hneg].
  - rewrite (@normalize_positive taskScores Hnd Hpos).
    now rewrite (keys_map (fun v => (v / total_of taskScores)%R)).
  - rewrite (@normalize_not_positive taskScores Hneg). intros [].
Qed.

Lemma task_occurrences_pos (w task : jsstring) (rows : list Row) :
  0 < task_occurrences w task rows ->
  exists row,
    In row rows
    /\ is_labeled row = true
    /\ or_empty (Task row) = task
    /\ In w (remark_tokens row).
Proof.
  unfold task_occurrences, labeled_rows.
  induction rows as [|row rows IH]; simpl; [lia|].
  intros H.
  destruct (is_labeled row) eqn:L; simpl in H.
  - destruct (JsString.eqb (or_empty (Task row)) task) eqn:E; simpl in H.
    + destruct (occurrences w (remark_tokens row)) as [|n] eqn:O.
      * destruct (IH H) as (row' & Hin & H'). exists row'. split; [now right|].
        exact H'.
      * exists row. split; [now left|]. split; [exact L|].
        split; [now apply jsstring_eqb_eq|].
        apply includes_In. rewrite occurrences_includes, O. reflexivity.
    + destruct (IH H) as (row' & Hin & H'). exists row'. split; [now right|].
      exact H'.
  - destruct (IH H) as (row' & Hin & H'). exists row'. split; [now right|].
    exact H'.
Qed.

(** X12: a trained model gives a remark only tasks it has seen with a
    word of the remark: every task of the distribution labels a training
    row whose tokens share a token with the remark. *)
Theorem inferred_task_seen (rows : list Row) (model : Model)
  (remark task : jsstring) :
  train rows = Ok model ->
  In task (JsMap.keys (infer model remark)) ->
  exists w row,
    In w (extract_words remark)
    /\ In row rows
    /\ is_labeled row = true
    /\ or_empty (Task row) = task
    /\ In w (remark_tokens row).
Proof.
  intros Htrain Hin. rewrite infer_normalize in Hin.
  apply normalize_keys in Hin; [|apply taskScores_of_NoDup].
  apply taskScores_of_keys in Hin as (w & e & Hw & He & Ht).
  destruct (train_counts_tasks_ok rows) as (counts & _ & Hrun & _ & Htasks).
  rewrite Hrun in Htrain. injection Htrain as <-.
  apply trained_get in He as (e0 & He0 & ->). simpl in Ht.
  destruct (Htasks w e0 He0) as ((_ & _ & Hpos) & Hcount).
  apply get_In_keys in Ht.
  destruct (JsMap.get task (tasks e0)) as [count|] eqn:E; [|congruence].
  specialize (Hcount task). rewrite E in Hcount. simpl in Hcount.
  apply get_In in E. rewrite Forall_forall in Hpos.
  specialize (Hpos _ E). simpl in Hpos.
  destruct (@task_occurrences_pos w task rows) as (row & H); [lia|].
  exists w, row. tauto.
Qed.

Lemma inferred_task_seen_witness :
  exists w row,
    In w (extract_words scenario_remark)
    /\ In row scenario_rows
    /\ is_labeled row = true
    /\ or_empty (Task row) = animal_ai
    /\ In w (remark_tokens row).
Proof.
  apply (@inferred_task_seen scenario_rows (idf_pass scenario_counts)
           scenario_remark animal_ai scenario_train).
  rewrite scenario_infer. left. reflexivity.
Defined.

Lemma NoDup_all_equal {A : Type} (x : A) (l : list A) :
  NoDup l -> (forall y, In y l -> y = x) -> l = [] \/ l = [x].
Proof.
  intros Hnd H. destruct l as [|a l]; [now left|]. right.
  assert (a = x) by (apply H; now left). subst a.
  destruct l as [|b l]; [reflexivity|].
  assert (b = x) by (apply H; right; now left). subst b.
  inversion Hnd as [|? ? Hnot _]. exfalso. apply Hnot. now left.
Qed.

(** X13: when every known word of a remark was seen with one task only,
    the same for all, the distribution is empty or gives that task the
    probability one. *)
Theorem single_task_remark (model : Model) (remark task : jsstring) :
  (forall w e t,
      In w (extract_words remark) ->
      JsMap.get w (word_entries model) = Some e ->
      In t (JsMap.keys (tasks e)) ->
      t = task) ->
  infer model remark = JsMap.empty \/ infer model remark = [(task, 1%R)].
Proof.
  intros H. rewrite infer_normalize.
  pose proof (taskScores_of_NoDup model (extract_words remark)) as Hnd.
  assert (Hkeys : forall t,
             In t (JsMap.keys (taskScores_of model (extract_words remark))) ->
             t = task).
  { intros t Ht. apply taskScores_of_keys in Ht as (w & e & Hw & He & Ht).
    exact (H w e t Hw He Ht). }
  destruct (NoDup_all_equal Hnd Hkeys) as [E|E].
  - left. destruct (taskScores_of model (extract_words remark));
      [apply normalize_empty | discriminate E].
  - destruct (taskScores_of model (extract_words remark)) as [|[t s] [|? ?]];
      try discriminate E.
    injection E as ->.
    destruct (Rlt_dec 0 s) as [Hpos|Hneg].
    + right. now apply normalize_single.
    + left. apply normalize_not_positive. unfold total_of. simpl. lra.
Qed.

Lemma single_task_remark_witness :
  infer (idf_pass scenario_counts) scenario_remark = JsMap.empty
  \/ infer (idf_pass scenario_counts) scenario_remark = [(animal_ai, 1%R)].
Proof.
  apply (@single_task_remark (idf_pass scenario_counts) scenario_remark
           animal_ai).
  intros w e t Hw He Ht. rewrite scenario_extract_words in Hw.
  rewrite idf_pass_get in He.
  destruct (JsMap.get w (word_entries scenario_counts)) as [e0|] eqn:E0;
    [|discriminate He].
  simpl in He. injection He as <-. simpl in Ht.
  unfold scenario_words in Hw. simpl in Hw.
  repeat (destruct Hw as [<-|Hw];
          [vm_compute in E0; try discriminate E0; injection E0 as <-;
           simpl in Ht; destruct Ht as [<-|[]]; reflexivity|]).
  contradiction.
Defined.

(** ** The ranking *)

Lemma insert_by_probability_perm (x : jsstring * R) (l : list (jsstring * R)) :
  Permutation (insert_by_probability x l) (x :: l).
Proof.
  induction l as [|y l IH]; simpl; [apply Permutation_refl|].
  destruct (Rlt_dec (snd x) (snd y)); [|apply Permutation_refl].
  apply Permutation_trans with (y :: x :: l); [now constructor | apply perm_swap].
Qed.

Lemma insert_by_probability_sorted (x : jsstring * R) (l : list (jsstring * R)) :
  StronglySorted not_less_probable l ->
  StronglySorted not_less_probable (insert_by_probability x l).
Proof.
  induction 1 as [|y l Hl IH Hy]; simpl.
  - repeat constructor.
  - destruct (Rlt_dec (snd x) (snd y)) as [Hlt|Hge].
    + constructor; [assumption|].
      apply (Permutation_Forall
               (Permutation_sym (insert_by_probability_perm x l))).
      constructor; [unfold not_less_probable; lra | assumption].
    + constructor; [now constructor|].
      constructor; [unfold not_less_probable; lra|].
      apply (Forall_impl _ (P := not_less_probable y)); [|assumption].
      unfold not_less_probable. intros z Hz. lra.
Qed.

Lemma insert_by_probability_stable (p : R) (x : jsstring * R)
  (l : list (jsstring * R)) :
  with_probability p (insert_by_probability x l) = with_probability p (x :: l).
Proof.
  unfold with_probability. induction l as [|y l IH]; [reflexivity|].
  simpl in *. destruct (Rlt_dec (snd x) (snd y)) as [Hlt|Hge]; [|reflexivity].
  simpl. rewrite IH.
  destruct (Req_dec_T (snd x) p), (Req_dec_T (snd y) p); try reflexivity.
  lra.
Qed.

Lemma sortedTasks_spec (d : JsMap.t R) :
  Permutation (sortedTasks d) d
  /\ StronglySorted not_less_probable (sortedTasks d)
  /\ forall p, with_probability p (sortedTasks d) = with_probability p d.
Proof.
  unfold sortedTasks, JsMap.entries.
  induction d as [|x d (Hperm & Hsorted & Hstable)]; simpl.
  - repeat split; constructor.
  - split; [|split].
    + apply Permutation_trans with (x :: fold_right insert_by_probability [] d);
        [apply insert_by_probability_perm | now constructor].
    + now apply insert_by_probability_sorted.
    + intros p. rewrite insert_by_probability_stable.
      unfold with_probability in *. simpl. now rewrite Hstable.
Qed.

(** X14: [sortedTasks] holds the pairs of the distribution, each once,
    from the most probable down, and pairs of equal probability stay in
    the order they have in the distribution. *)
Theorem sortedTasks_stable_descending (d : JsMap.t R) :
  Permutation (sortedTasks d) (JsMap.entries d)
  /\ StronglySorted (fun a b => (snd b <= snd a)%R) (sortedTasks d)
  /\ forall p,
       filter (fun x => if Req_dec_T (snd x) p then true else false)
         (sortedTasks d)
       = filter (fun x => if Req_dec_T (snd x) p then true else false)
           (JsMap.entries d).
Proof. apply sortedTasks_spec. Qed.

Lemma StronglySorted_filter {A : Type} (R : A -> A -> Prop) (f : A -> bool)
  (l : list A) :
  StronglySorted R l -> StronglySorted R (filter f l).
Proof.
  induction 1 as [|x l Hl IH Hx]; simpl; [constructor|].
  destruct (f x); [|assumption]. constructor; [assumption|].
  apply Forall_forall. intros y Hy. apply filter_In in Hy as [Hy _].
  rewrite Forall_forall in Hx. now apply Hx.
Qed.

Lemma StronglySorted_firstn {A : Type} (R : A -> A -> Prop) (n : nat)
  (l : list A) :
  StronglySorted R l -> StronglySorted R (firstn n l).
Proof.
  intros H. revert n. induction H as [|x l Hl IH Hx]; intros [|n]; simpl;
    try constructor.
  - apply IH.
  - apply Forall_forall. intros y Hy.
    rewrite Forall_forall in Hx. apply Hx.
    rewrite <- (firstn_skipn n l). apply in_or_app. now left.
Qed.

Lemma In_firstn {A : Type} (n : nat) (l : list A) (x : A) :
  In x (firstn n l) -> In x l.
Proof.
  intros H. rewrite <- (firstn_skipn n l). apply in_or_app. now left.
Qed.

Lemma filteredTasks_reaching (d : JsMap.t R) :
  filteredTasks d = firstn 5 (reaching_threshold (sortedTasks d)).
Proof. reflexivity. Qed.

Lemma filteredTasks_In (d : JsMap.t R) (x : jsstring * R) :
  In x (filteredTasks d) -> In x d /\ (5 / 100 <= snd x)%R.
Proof.
  rewrite filteredTasks_reaching. intros H. apply In_firstn in H.
  apply filter_In in H as [H Hp]. split.
  - apply (Permutation_in x (proj1 (sortedTasks_spec d)) H).
  - destruct x as [t p]. simpl in *.
    now destruct (Rle_dec (5 / 100) p).
Qed.

(** X15: the report has at most five pairs, every one a pair of the
    distribution with a probability of at least 5%, from the most
    probable down; and when at most five pairs of the distribution reach
    5%, the report holds each of them. *)
Theorem filteredTasks_report (d : JsMap.t R) :
  List.length (filteredTasks d) <= 5
  /\ Forall (fun x => In x (JsMap.entries d) /\ (5 / 100 <= snd x)%R)
       (filteredTasks d)
  /\ StronglySorted (fun a b => (snd b <= snd a)%R) (filteredTasks d)
  /\ (List.length
        (filter (fun '(_, probability) =>
                   if Rle_dec (5 / 100) probability then true else false)
           (JsMap.entries d)) <= 5 ->
      Permutation (filteredTasks d)
        (filter (fun '(_, probability) =>
                   if Rle_dec (5 / 100) probability then true else false)
           (JsMap.entries d))).
Proof.
  destruct (sortedTasks_spec d) as (Hperm & Hsorted & _).
  split; [|split; [|split]].
  - rewrite filteredTasks_reaching. apply firstn_le_length.
  - apply Forall_forall. intros x Hx. now apply filteredTasks_In.
  - rewrite filteredTasks_reaching.
    apply (StronglySorted_firstn (R := not_less_probable)).
    now apply StronglySorted_filter.
  - intros Hfive. rewrite filteredTasks_reaching.
    assert (Hp : Permutation (reaching_threshold (sortedTasks d))
                   (reaching_threshold d))
      by now apply filter_Permutation.
    rewrite firstn_all2; [exact Hp|].
    rewrite (Permutation_length Hp). exact Hfive.
Qed.

Lemma filteredTasks_report_witness :
  Permutation
    (filteredTasks [(JsString.lit "a", (1 / 100)%R); (JsString.lit "b", (99 / 100)%R)])
    (filter (fun '(_, probability) =>
               if Rle_dec (5 / 100) probability then true else false)
       [(JsString.lit "a", (1 / 100)%R); (JsString.lit "b", (99 / 100)%R)]).
Proof.
  apply (filteredTasks_report
           [(JsString.lit "a", (1 / 100)%R); (JsString.lit "b", (99 / 100)%R)]).
  apply Nat.le_trans with 2; [apply filter_length_le | repeat constructor].
Defined.

(** ** When something is reported *)






(** ** The longest line *)

Lemma split_unit_from_lengths (sep : JsString.code_unit) (s : jsstring) :
  forall piece : jsstring,
    list_sum (map (@List.length _) (JsString.split_unit_from sep piece s))
    + List.length (JsString.split_unit_from sep piece s)
    = List.length piece + List.length s + 1.
Proof.
  induction s as [|c s IH]; intros piece; simpl.
  - rewrite length_rev. lia.
  - destruct (N.eqb c sep); simpl.
    + rewrite length_rev. specialize (IH []). simpl in IH. lia.
    + rewrite IH. simpl. lia.
Qed.

Lemma fold_max_bounds (l : list jsstring) :
  forall a : nat,
    a <= fold_left (fun max line => Nat.max max (List.length line)) l a
    /\ Forall
         (fun line =>
            List.length line
            <= fold_left (fun max line => Nat.max max (List.length line)) l a)
         l
    /\ fold_left (fun max line => Nat.max max (List.length line)) l a
       <= a + list_sum (map (@List.length _) l)
    /\ (fold_left (fun max line => Nat.max max (List.length line)) l a = a
        \/ exists line,
             In line l
             /\ List.length line
                = fold_left (fun max line => Nat.max max (List.length line)) l a).
Proof.
  induction l as [|x l IH]; intros a; simpl.
  - repeat split; [lia | constructor | lia | now left].
  - destruct (IH (Nat.max a (List.length x))) as (Hge & Hall & Hle & Hatt).
    repeat split.
    + lia.
    + constructor; [lia | assumption].
    + lia.
    + destruct Hatt as [Heq|(line & Hin & Hlen)].
      * destruct (Nat.max_spec a (List.length x)) as [[_ Hm]|[_ Hm]].
        -- right. exists x. split; [now left | lia].
        -- left. lia.
      * right. exists line. split; [now right | assumption].
Qed.

(** X17: [count_max_length] is the length of a longest line of the
    remark: no line is longer, some line is that long, and the result is
    at most the length of the remark. *)
Theorem count_max_length_longest_line (remark : jsstring) :
  Forall (fun line => List.length line <= count_max_length remark)
    (JsString.split_unit 10%N remark)
  /\ (exists line,
         In line (JsString.split_unit 10%N remark)
         /\ List.length line = count_max_length remark)
  /\ count_max_length remark <= List.length remark.
Proof.
  unfold count_max_length, JsString.split_unit.
  pose proof (split_unit_from_lengths 10%N remark []) as Hlen. simpl in Hlen.
  destruct (fold_max_bounds (JsString.split_unit_from 10%N [] remark) 0)
    as (_ & Hall & Hle & Hatt).
  destruct (JsString.split_unit_from 10%N [] remark) as [|line0 lines] eqn:E.
  { simpl in Hlen. lia. }
  split; [exact Hall|]. split.
  - destruct Hatt as [Hzero|Hatt]; [|exact Hatt].
    exists line0. split; [now left|].
    inversion Hall as [|? ? H0 _]; subst. lia.
  - simpl in Hlen, Hle |- *. lia.
Qed.

(** ** Tags *)

Example mapTag_typo :
  Category.mapTag (JsString.lit "faet")
  = Category.TagString (JsString.lit "dev:feat").
Proof. reflexivity. Qed.

Example mapTag_unknown :
  Category.mapTag (JsString.lit "team")
  = Category.TagString (JsString.lit "team").
Proof. reflexivity. Qed.

Example mapTag_inherited :
  Category.mapTag (JsString.lit "constructor")
  = Category.TagInherited (JsString.lit "constructor").
Proof. reflexivity. Qed.

Example match_tag_line :
  match_tag (JsString.lit "team: demo to lanna") = Some (JsString.lit "team").
Proof. reflexivity. Qed.

Example match_tag_no_space :
  match_tag (JsString.lit "team:demo") = None.
Proof. reflexivity. Qed.

Example extract_tags_lines :
  extract_tags (fun s => s) (JsString.lit "website")
    (JsString.lit "faet: setup form" ++ 10%N :: JsString.lit "team: demo")
  = [Category.TagString (JsString.lit "dev:feat");
     Category.TagString (JsString.lit "team")].
Proof. reflexivity. Qed.

Example extract_tags_fallback :
  extract_tags (fun s => s) (JsString.lit "website")
    (JsString.lit "add form and setup ci")
  = [Category.TagString (JsString.lit "devop")].
Proof. reflexivity. Qed.

Lemma categorize_tag_categories (tag : jsstring) :
  Category.categorize Category.tag_categories tag
  = if JsString.includes
         (map JsString.lit
            ["feat"; "wip"; "exp"; "chore"; "patch"; "ui"; "data"; "db";
             "seed"; "perf"; "debug"]%string) tag
    then Category.TagString (JsString.lit "dev:" ++ tag)
    else if JsString.includes (map JsString.lit ["ci"; "deploy"]%string) tag
         then Category.TagString (JsString.lit "devop:" ++ tag)
         else Category.TagString tag.
Proof. reflexivity. Qed.

Lemma mapTag_plain (tag : jsstring) :
  JsMap.get tag Category.typo_tags = None ->
  JsString.includes Category.object_prototype_properties tag = false ->
  Category.mapTag tag = Category.categorize Category.tag_categories tag.
Proof. unfold Category.mapTag. now intros -> ->. Qed.

(** X18: [mapTag] is idempotent on strings: a string it returns is
    mapped to itself, so a corrected or categorized tag is not corrected
    or categorized again. *)
Theorem mapTag_idempotent (tag s : jsstring) :
  Category.mapTag tag = Category.TagString s ->
  Category.mapTag s = Category.TagString s.
Proof.
  unfold Category.mapTag at 1.
  destruct (JsMap.get tag Category.typo_tags) as [corrected|] eqn:E.
  - unfold Category.typo_tags in E. simpl in E.
    repeat match type of E with
           | context [if ?b then _ else _] => destruct b
           end;
      try discriminate E; injection E as <-;
      intros H; vm_compute in H; injection H as <-; reflexivity.
  - destruct (JsString.includes Category.object_prototype_properties tag)
      eqn:P; [discriminate|].
    rewrite categorize_tag_categories.
    match goal with
    | |- context [if ?b then Category.TagString (JsString.lit "dev:" ++ _)
                  else _] => destruct b eqn:V1
    end.
    { apply includes_In in V1. simpl in V1. intros H.
      repeat (destruct V1 as [<-|V1];
              [vm_compute in H; injection H as <-; reflexivity|]).
      contradiction. }
    match goal with
    | |- context [if ?b then Category.TagString (JsString.lit "devop:" ++ _)
                  else _] => destruct b eqn:V2
    end.
    { apply includes_In in V2. simpl in V2. intros H.
      repeat (destruct V2 as [<-|V2];
              [vm_compute in H; injection H as <-; reflexivity|]).
      contradiction. }
    intros H. injection H as <-.
    rewrite (mapTag_plain tag E P), categorize_tag_categories, V1, V2.
    reflexivity.
Qed.

Lemma mapTag_idempotent_witness :
  Category.mapTag (JsString.lit "dev:feat")
  = Category.TagString (JsString.lit "dev:feat").
Proof.
  apply (@mapTag_idempotent (JsString.lit "faet") (JsString.lit "dev:feat")).
  reflexivity.
Defined.


Lemma push_if_empty_length {A : Type} (b : bool) (x : A) (l : list A) :
  List.length (if (List.length l =? 0) && b then l ++ [x] else l)
  = if (List.length l =? 0) && b then 1 else List.length l.
Proof. destruct l; simpl; [now destruct b | reflexivity]. Qed.





(** ** Training on rows put together *)

Lemma trained_counters (rows : list Row) (counts : Model) (w : jsstring) :
  counts_ok rows counts ->
  document_frequency_of (JsMap.get w (word_entries (idf_pass counts)))
  = remarks_containing w rows
  /\ total_occurrence_of (JsMap.get w (word_entries (idf_pass counts)))
     = total_occurrences w rows.
Proof.
  intros (_ & _ & Hslots). rewrite idf_pass_get. specialize (Hslots w).
  destruct (JsMap.get w (word_entries counts)) as [e0|]; simpl in *.
  - destruct Hslots as (_ & Hdf & Htot & _). now split.
  - destruct Hslots as (-> & ->). now split.
Qed.

Lemma recounts_app (rows1 rows2 : list Row) (w : jsstring) :
  List.length (labeled_rows (rows1 ++ rows2))
  = List.length (labeled_rows rows1) + List.length (labeled_rows rows2)
  /\ remarks_containing w (rows1 ++ rows2)
     = remarks_containing w rows1 + remarks_containing w rows2
  /\ total_occurrences w (rows1 ++ rows2)
     = total_occurrences w rows1 + total_occurrences w rows2.
Proof.
  unfold remarks_containing, total_occurrences, labeled_rows.
  rewrite !filter_app, map_app, list_sum_app, !length_app. auto.
Qed.

(** X20: training on two lists of rows put together adds up what
    training on each gives: the number of remarks, and for every word the
    document frequency and the total occurrence, a word without an entry
    counting as zero. *)
Theorem train_app_adds_counters (rows1 rows2 : list Row) :
  exists model1 model2 model,
    train rows1 = Ok model1
    /\ train rows2 = Ok model2
    /\ train (rows1 ++ rows2) = Ok model
    /\ total_remarks model = total_remarks model1 + total_remarks model2
    /\ forall w,
         document_frequency_of (JsMap.get w (word_entries model))
         = document_frequency_of (JsMap.get w (word_entries model1))
           + document_frequency_of (JsMap.get w (word_entries model2))
         /\ total_occurrence_of (JsMap.get w (word_entries model))
            = total_occurrence_of (JsMap.get w (word_entries model1))
              + total_occurrence_of (JsMap.get w (word_entries model2)).
Proof.
  destruct (train_spec rows1) as (c1 & _ & Hrun1 & Hok1).
  destruct (train_spec rows2) as (c2 & _ & Hrun2 & Hok2).
  destruct (train_spec (rows1 ++ rows2)) as (c & _ & Hrun & Hok).
  exists (idf_pass c1), (idf_pass c2), (idf_pass c).
  repeat (split; [assumption|]). split.
  - simpl. destruct Hok1 as (-> & _), Hok2 as (-> & _), Hok as (-> & _).
    apply (recounts_app rows1 rows2 []).
  - intros w.
    destruct (@trained_counters rows1 c1 w Hok1) as (-> & ->).
    destruct (@trained_counters rows2 c2 w Hok2) as (-> & ->).
    destruct (@trained_counters (rows1 ++ rows2) c w Hok) as (-> & ->).
    destruct (recounts_app rows1 rows2 w) as (_ & -> & ->). now split.
Qed.

(** ** What does not change a distribution *)

Lemma scale_scores_get (c : R) (m : JsMap.t R) (k : jsstring) :
  score_or_zero (JsMap.get k (scale_scores c m))
  = (c * score_or_zero (JsMap.get k m))%R.
Proof.
  unfold scale_scores. rewrite (get_map (fun v => (c * v)%R)).
  destruct (JsMap.get k m); simpl; lra.
Qed.

Lemma scale_scores_set (c : R) (m : JsMap.t R) (k : jsstring) (v : R) :
  JsMap.set k (c * v)%R (scale_scores c m) = scale_scores c (JsMap.set k v m).
Proof.
  unfold scale_scores. induction m as [|[k0 v0] m IH]; simpl; [reflexivity|].
  destruct (JsString.eqb k k0); simpl; [reflexivity|]. now rewrite IH.
Qed.

Lemma distribute_scale (c x x' : R) (wordEntry : Word) (taskScores : JsMap.t R) :
  x' = (c * x)%R ->
  distribute x' wordEntry (scale_scores c taskScores)
  = scale_scores c (distribute x wordEntry taskScores).
Proof.
  intros ->. unfold distribute, JsMap.entries.
  generalize (tasks wordEntry) as l.
  intros l; revert taskScores; induction l as [|[t n] l IH];
    intros taskScores; simpl; [reflexivity|].
  rewrite scale_scores_get.
  replace (c * score_or_zero (JsMap.get t taskScores) + c * x * INR n)%R
    with (c * (score_or_zero (JsMap.get t taskScores) + x * INR n))%R by ring.
  rewrite scale_scores_set. apply IH.
Qed.

(** Two remarks whose known words have term frequencies in the ratio
    [c] have scores in the ratio [c]. *)
Lemma score_fold_scale (model : Model) (c : R) (wordFreq wordFreq' : JsMap.t nat)
  (n n' : nat) (l : list jsstring) :
  (forall w e,
      In w l ->
      JsMap.get w (word_entries model) = Some e ->
      (INR (or_zero (JsMap.get w wordFreq')) / INR n'
       = c * (INR (or_zero (JsMap.get w wordFreq)) / INR n))%R) ->
  forall acc,
    fold_left (score_word model wordFreq' n') l (scale_scores c acc)
    = scale_scores c (fold_left (score_word model wordFreq n) l acc).
Proof.
  induction l as [|w l IH]; intros Htf acc; simpl; [reflexivity|].
  assert (Hstep : score_word model wordFreq' n' (scale_scores c acc) w
                  = scale_scores c (score_word model wordFreq n acc w)).
  { unfold score_word.
    destruct (JsMap.get w (word_entries model)) as [e|] eqn:E; [|reflexivity].
    apply distribute_scale.
    rewrite (Htf w e (or_introl eq_refl) E). ring. }
  rewrite Hstep. apply IH. intros w' e Hw' He. apply (Htf w' e); [now right|].
  exact He.
Qed.






Lemma occurrences_app (w : jsstring) (l1 l2 : list jsstring) :
  occurrences w (l1 ++ l2) = occurrences w l1 + occurrences w l2.
Proof. unfold occurrences. now rewrite filter_app, length_app. Qed.

Lemma wordFreq_occurrences (words : list jsstring) (w : jsstring) :
  or_zero (JsMap.get w (wordFreq_of words)) = occurrences w words.
Proof.
  pose proof (wordFreq_fold words JsMap.empty w) as H. exact H.
Qed.




Lemma add_known (extra : list jsstring) :
  forall s : JsSet.t,
    (forall x, In x extra -> In x s) ->
    fold_left (fun s x => JsSet.add x s) extra s = s.
Proof.
  induction extra as [|x extra IH]; intros s H; simpl; [reflexivity|].
  assert (Hx : JsString.includes s x = true)
    by (apply includes_In, H; now left).
  unfold JsSet.add at 2. rewrite Hx. apply IH. intros y Hy. apply H. now right.
Qed.

Lemma from_array_twice (words : list jsstring) :
  JsSet.from_array (words ++ words) = JsSet.from_array words.
Proof.
  unfold JsSet.from_array. rewrite fold_left_app. apply add_known.
  intros x Hx. now apply from_array_In.
Qed.

Lemma scale_scores_one (m : JsMap.t R) : scale_scores 1 m = m.
Proof.
  unfold scale_scores. induction m as [|[k v] m IH]; simpl; [reflexivity|].
  rewrite IH. now rewrite Rmult_1_l.
Qed.

Lemma taskScores_of_twice (model : Model) (words : list jsstring) :
  taskScores_of model (words ++ words) = taskScores_of model words.
Proof.
  destruct words as [|w0 words0] eqn:E; [reflexivity|]. rewrite <- E.
  assert (Hn : (0 < INR (List.length words))%R).
  { apply lt_0_INR. subst words. simpl. lia. }
  unfold taskScores_of. rewrite !wordFreq_keys_set, from_array_twice.
  rewrite <- (scale_scores_one
                (fold_left
                   (score_word model (wordFreq_of words) (List.length words))
                   (JsSet.from_array words) JsMap.empty)).
  change (@JsMap.empty R) with (scale_scores 1 (@JsMap.empty R)) at 1.
  apply score_fold_scale. intros w e _ _.
  rewrite !wordFreq_occurrences, occurrences_app, length_app, !plus_INR.
  field. lra.
Qed.

(** X22: a remark written twice has the distribution of the remark: the
    scores depend on the share of each word among the tokens, not on the
    number of tokens. *)
Theorem repeated_remark_keeps_distribution (model : Model)
  (c : JsString.code_unit) (remark : jsstring) :
  JsString.is_white_space c = true ->
  infer model (remark ++ c :: remark) = infer model remark.
Proof.
  intros Hc. rewrite !infer_normalize, (@extract_words_app c remark remark Hc).
  now rewrite taskScores_of_twice.
Qed.

Lemma repeated_remark_keeps_distribution_witness :
  infer (idf_pass scenario_counts) (scenario_remark ++ 10%N :: scenario_remark)
  = infer (idf_pass scenario_counts) scenario_remark.
Proof.
  apply (@repeated_remark_keeps_distribution (idf_pass scenario_counts) 10%N
           scenario_remark).
  reflexivity.
Defined.
